(** * govici: the vici message tree, its wire codec and its schema mapper

    A shallow embedding of [message.go].  Go values are modelled as follows.

    - [string] is [string] (a sequence of 8-bit characters); [[]byte] is
      [list byte]; Go [int] lengths and counts are [Z], with the [uint8] and
      [uint16] conversions written out as reductions modulo 256 and 65536.
    - [interface{}] is the inductive [iface], one constructor per dynamic
      type the code distinguishes.  A nil slice and an allocated empty slice
      are different values, as they are for [reflect.Value.IsNil].  A value
      of kind String whose type is not [string] is not represented.
    - [*Message] is [option Message] ([None] is the nil pointer).  Messages
      are finite trees: pointer sharing and cycles are not represented.  A
      message holds a map, as one made by [NewMessage] does: the zero
      [Message{}], whose map is nil, is not represented.
    - [map[string]interface{}] is stdpp's [gmap string iface].
    - A method that mutates its receiver returns the receiver's new state
      next to its Go result.  A run-time panic is the outcome [Panic]. *)

From Stdlib Require Import ZArith Lia.
From Stdlib Require Import Strings.Byte.
From stdpp Require Import gmap strings list fin_maps.

#[local] Open Scope Z_scope.

(** ** Wire integers *)

#[global] Instance byte_eq_dec : EqDecision byte := Byte.byte_eq_dec.

(** [uint8(n)]: the low eight bits of [n]. *)
Definition uint8 (n : Z) : byte :=
  default x00 (Byte.of_N (Z.to_N (n mod 256))).

(** [int(b)] for a byte [b]. *)
Definition int_of_byte (b : byte) : Z := Z.of_N (Byte.to_N b).

(** [uint16(n)]: the low sixteen bits of [n]. *)
Definition uint16 (n : Z) : Z := n mod 65536.

(** [binary.BigEndian.PutUint16] into a fresh two-byte slice. *)
Definition PutUint16 (v : Z) : list byte := [uint8 (v / 256); uint8 v].

(** [binary.BigEndian.Uint16] of a two-byte slice. *)
Definition Uint16 (b : list byte) : Z :=
  match b with
  | [hi; lo] => int_of_byte hi * 256 + int_of_byte lo
  | _ => 0
  end.

(** [len(s)] of a string, and [[]byte(s)], [string(b)]. *)
Definition len (s : string) : Z := Z.of_nat (String.length s).
Definition bytes_of (s : string) : list byte := String.list_byte_of_string s.
Definition string_of (b : list byte) : string := String.string_of_list_byte b.

(** [bytes.Buffer.Next(n)]: the next [n] bytes (all of them when fewer are
    left) and the buffer after them. *)
Definition Next (n : Z) (buf : list byte) : list byte * list byte :=
  (take (Z.to_nat n) buf, drop (Z.to_nat n) buf).

(** ** Element type codes *)

Definition msgSectionStart : byte := x01.
Definition msgSectionEnd : byte := x02.
Definition msgKeyValue : byte := x03.
Definition msgListStart : byte := x04.
Definition msgListItem : byte := x05.
Definition msgListEnd : byte := x06.

(** ** The message tree *)

Inductive iface : Type :=
  | IString (s : string)                  (* a string *)
  | IStrings (l : option (list string))   (* a []string; None is the nil slice *)
  | IOtherSlice                           (* a slice or array that is not a []string *)
  | IMessage (p : option Message)         (* a *Message; None is the nil pointer *)
  | IOtherPtr                             (* a pointer that is not a *Message *)
  | IOther                                (* any other kind, the nil interface included *)
with Message : Type :=
  | mkMessage (keys : list string) (data : gmap string iface).

Definition keys (m : Message) : list string := let 'mkMessage ks _ := m in ks.
Definition data (m : Message) : gmap string iface := let 'mkMessage _ d := m in d.

(** ** Errors *)

Inductive error : Type :=
  | io_EOF
  | errUnsupportedType
  | errBadKey
  | errBadValue
  | errEndOfBuffer
  | errExpectedBeginning
  | errEncodingOf (cause : error)            (* fmt.Errorf("%v: %v", errEncoding, err) *)
  | errDecodingOf (cause : error)            (* fmt.Errorf("%v: %v", errDecoding, err) *)
  | errMarshalUnsupportedType
  | errUnmarshalBadType
  | errUnmarshalTypeMismatch
  | errUnmarshalNonMessage
  | errCommandFailedOf (operand : option iface). (* fmt.Errorf("%v: %v", errCommandFailed, x) *)

(** The errors built on [errMalformedMessage]. *)
Definition malformed (e : error) : bool :=
  match e with
  | errBadKey | errBadValue | errEndOfBuffer | errExpectedBeginning => true
  | _ => false
  end.

Inductive outcome (A : Type) : Type :=
  | Ok (a : A)
  | Error (e : error)
  | Panic.
Arguments Ok {A} a.
Arguments Error {A} e.
Arguments Panic {A}.

(** ** Message: construction and access *)

Definition NewMessage : Message := mkMessage [] ∅.

Definition Get (m : Message) (key : string) : option iface := data m !! key.

Definition Keys (m : Message) : list string := keys m.

(** [x == "yes"] for an interface value [x]. *)
Definition is_yes (x : iface) : bool :=
  match x with
  | IString s => bool_decide (s = "yes")
  | _ => false
  end.

Definition Err (m : Message) : option error :=
  match data m !! "success" with
  | Some success =>
      if is_yes success then None
      else Some (errCommandFailedOf (data m !! "errmsg"))
  | None => None
  end.

(** The verb [%v] applied to what [m.data[key]] returns.  Nested messages
    print through their addresses and are left out ([None]). *)
Definition Sprint (x : option iface) : option string :=
  match x with
  | None => Some "<nil>"
  | Some (IString s) => Some s
  | Some (IStrings None) => Some "[]"
  | Some (IStrings (Some l)) => Some ("[" +:+ String.concat " " l +:+ "]")
  | Some (IMessage None) => Some "<nil>"
  | Some _ => None
  end.

(** What follows ["vici: command failed: "] in the text of the error. *)
Definition carried_text (e : error) : option string :=
  match e with
  | errCommandFailedOf x => Sprint x
  | _ => None
  end.

(** [m.data[key] = v]. *)
Definition assign (m : Message) (key : string) (v : iface) : Message :=
  mkMessage (keys m) (<[key := v]> (data m)).

(** The types [addItem] stores. *)
Definition supported (value : iface) : bool :=
  match value with
  | IString _ | IStrings _ | IMessage _ => true
  | IOtherSlice | IOtherPtr | IOther => false
  end.

Definition addItem (m : Message) (key : string) (value : iface)
  : Message * option error :=
  let exists_ := bool_decide (is_Some (data m !! key)) in
  let stored :=
    match value with
    | IString s => Some (assign m key (IString s))
    | IStrings list_ => Some (assign m key (IStrings list_))
    | IOtherSlice => None
    | IMessage msg => Some (assign m key (IMessage msg))
    | IOtherPtr => None
    | IOther => None
    end in
  match stored with
  | None => (m, Some errUnsupportedType)
  | Some m' =>
      (if exists_ then m' else mkMessage (keys m' ++ [key]) (data m'), None)
  end.

Definition Set_ (m : Message) (key : string) (value : iface)
  : Message * option error :=
  addItem m key value.

(** The invariant [addItem] maintains from [NewMessage]: every key is listed
    once and the listed keys are those of the map. *)
Definition consistent (m : Message) : Prop :=
  NoDup (keys m) ∧ ∀ k, k ∈ keys m ↔ is_Some (data m !! k).


(** ** Codec: encoding

    [bytes.Buffer]'s write methods return a nil error, so the branches of
    the source that wrap a write error in [errEncoding] are never taken and
    each encoder is the concatenation of what it writes. *)

Definition encodeKeyValue (key value : string) : outcome (list byte) :=
  Ok ([msgKeyValue] ++ [uint8 (len key)] ++ bytes_of key
        ++ PutUint16 (uint16 (len value)) ++ bytes_of value).

(** The elements a [for _, item := range list] visits. *)
Definition items (list_ : option (list string)) : list string :=
  default [] list_.

Definition encodeItem (item : string) : list byte :=
  [msgListItem] ++ PutUint16 (uint16 (len item)) ++ bytes_of item.

Definition encodeList (key : string) (list_ : option (list string))
  : outcome (list byte) :=
  Ok ([msgListStart] ++ [uint8 (len key)] ++ bytes_of key
        ++ (items list_ ≫= encodeItem) ++ [msgListEnd]).

(** The loop [for e := range m.elements()] of [encode] and [encodeSection]:
    [enc k] encodes the element under key [k]; the first failure is
    returned. *)
Fixpoint encodeElements (enc : string -> outcome (list byte)) (ks : list string)
  : outcome (list byte) :=
  match ks with
  | [] => Ok []
  | k :: ks =>
      match enc k with
      | Ok data =>
          match encodeElements enc ks with
          | Ok rest => Ok (data ++ rest)
          | Error e => Error e
          | Panic => Panic
          end
      | Error e => Error e
      | Panic => Panic
      end
  end.

(** The switch on [rv.Kind()] of both loops, for the element [v] under key
    [k].  The [reflect.Ptr] case is the body of [encodeSection]; so that the
    recursion is structural, the encoders of the section's elements are
    taken from the map first and looked up in key order afterwards (see
    [encodeValue_section]). *)
Fixpoint encodeValue (v : iface) (k : string) : outcome (list byte) :=
  match v with
  | IString uv => encodeKeyValue k uv
  | IStrings uv => encodeList k uv
  | IOtherSlice => Panic
  | IMessage (Some section) =>
      let each := encodeValue <$> data section in
      match encodeElements
              (fun k' => match each !! k' with
                         | Some enc => enc k'
                         | None => Error errUnsupportedType
                         end) (keys section) with
      | Ok body =>
          Ok ([msgSectionStart] ++ [uint8 (len k)] ++ bytes_of k
                ++ body ++ [msgSectionEnd])
      | Error e => Error e
      | Panic => Panic
      end
  | IMessage None => Panic
  | IOtherPtr => Error errUnsupportedType
  | IOther => Error errUnsupportedType
  end.

(** One iteration: [messageElement{k, m.data[k]}] and the switch. *)
Definition encodeElement (m : Message) (k : string) : outcome (list byte) :=
  match data m !! k with
  | Some v => encodeValue v k
  | None => Error errUnsupportedType
  end.

Definition encode (m : Message) : outcome (list byte) :=
  encodeElements (encodeElement m) (keys m).

Definition encodeSection (key : string) (section : option Message)
  : outcome (list byte) :=
  match section with
  | None => Panic
  | Some section =>
      match encode section with
      | Ok body =>
          Ok ([msgSectionStart] ++ [uint8 (len key)] ++ bytes_of key
                ++ body ++ [msgSectionEnd])
      | Error e => Error e
      | Panic => Panic
      end
  end.

(** ** Shape of a message tree

    [tree p q v]: [v] is a string, a []string or a non-nil message whose
    keys are listed once and are those of its map, every key satisfies [p],
    every string value and list item satisfies [q], and every element is
    such a tree again. *)
Fixpoint tree (p q : string -> bool) (v : iface) : bool :=
  match v with
  | IString s => q s
  | IStrings l => forallb q (items l)
  | IMessage (Some m) =>
      let sub := tree p q <$> data m in
      bool_decide (NoDup (keys m))
      && bool_decide (size (data m) = length (keys m))
      && forallb (fun k => p k && default false (sub !! k)) (keys m)
  | _ => false
  end.

(** A message [addItem] can have built, with no nil section. *)
Definition encodable (m : Message) : bool :=
  tree (fun _ => true) (fun _ => true) (IMessage (Some m)).

(** Keys of 1 to 255 bytes, values and list items of at most 65535. *)
Definition key_ok (k : string) : bool :=
  bool_decide (1 <= len k <= 255).
Definition value_ok (s : string) : bool :=
  bool_decide (len s <= 65535).
Definition wellFormed (m : Message) : bool :=
  tree key_ok value_ok (IMessage (Some m)).

(** Nesting depth, the measure of the inductions on message trees. *)
Fixpoint depth (v : iface) : nat :=
  match v with
  | IMessage (Some m) =>
      S (map_fold (fun _ v' n => Nat.max (depth v') n) 0%nat (data m))
  | _ => 0%nat
  end.


(** ** Codec: decoding

    A decoder returns the number of bytes it consumed after the element's
    type byte, next to the receiver's state.  [bytes.Buffer.ReadByte] fails
    with [io.EOF] exactly on an empty buffer.  The loops take a fuel argument
    that is set from the length of the buffer; [None] is an exhausted fuel,
    which the length never allows (see [decode_total]). *)

Definition decodeKeyValue (m : Message) (data : list byte)
  : outcome Z * Message :=
  match data with
  | [] => (Error (errDecodingOf io_EOF), m)
  | n :: buf =>
      let keyLen := int_of_byte n in
      let '(key, buf) := Next keyLen buf in
      let key := string_of key in
      if bool_decide (len key ≠ keyLen) then (Error errBadKey, m) else
      let '(v, buf) := Next 2 buf in
      if bool_decide (length v ≠ 2%nat) then (Error errEndOfBuffer, m) else
      let valueLen := Uint16 v in
      let '(value, buf) := Next valueLen buf in
      let value := string_of value in
      if bool_decide (len value ≠ valueLen) then (Error errBadValue, m) else
      match addItem m key (IString value) with
      | (m', Some err) => (Error (errDecodingOf err), m')
      | (m', None) => (Ok (keyLen + valueLen + 3), m')
      end
  end.

(** [append(list, value)]. *)
Definition append (list_ : option (list string)) (value : string)
  : option (list string) :=
  Some (items list_ ++ [value]).

(** The loop [for b != msgListEnd] of [decodeList]. *)
Fixpoint listLoop (fuel : nat) (buf : list byte) (b : byte)
    (list_ : option (list string)) (count : Z)
  : option (outcome (option (list string) * Z)) :=
  match fuel with
  | O => None
  | S fuel =>
      if bool_decide (b = msgListEnd) then Some (Ok (list_, count)) else
      if bool_decide (b ≠ msgListItem) then Some (Error errExpectedBeginning) else
      let '(v, buf) := Next 2 buf in
      if bool_decide (length v ≠ 2%nat) then Some (Error errEndOfBuffer) else
      let valueLen := Uint16 v in
      let '(value, buf) := Next valueLen buf in
      let value := string_of value in
      if bool_decide (len value ≠ valueLen) then Some (Error errBadValue) else
      let list_ := append list_ value in
      match buf with
      | [] => Some (Error (errDecodingOf io_EOF))
      | b :: buf => listLoop fuel buf b list_ (count + (valueLen + 3))
      end
  end.

Definition decodeList (m : Message) (data : list byte)
  : outcome Z * Message :=
  match data with
  | [] => (Error (errDecodingOf io_EOF), m)
  | n :: buf =>
      let keyLen := int_of_byte n in
      let '(key, buf) := Next keyLen buf in
      let key := string_of key in
      if bool_decide (len key ≠ keyLen) then (Error errBadKey, m) else
      match buf with
      | [] => (Error (errDecodingOf io_EOF), m)
      | b :: buf =>
          let count := keyLen + 2 in
          match default Panic (listLoop (S (length buf)) buf b None count) with
          | Ok (list_, count) =>
              match addItem m key (IStrings list_) with
              | (m', Some err) => (Error (errDecodingOf err), m')
              | (m', None) => (Ok count, m')
              end
          | Error e => (Error e, m)
          | Panic => (Panic, m)
          end
      end
  end.

(** The switch on the type byte in the loop of [decodeSection], with its
    default case; [decodeSection] is the recursive call. *)
Definition sectionSwitch
    (decodeSection : Message -> list byte -> option (outcome Z * Message))
    (section : Message) (buf : list byte) (b : byte)
  : option (outcome Z * Message) :=
  if bool_decide (b = msgKeyValue) then Some (decodeKeyValue section buf)
  else if bool_decide (b = msgListStart) then Some (decodeList section buf)
  else if bool_decide (b = msgSectionStart) then decodeSection section buf
  else Some (Error errExpectedBeginning, section).

(** [decodeSection] and its loop [for b != msgSectionEnd], which decodes
    into the local message [section]. *)
Fixpoint decodeSection_ (fuel : nat) (m : Message) (data : list byte)
  {struct fuel} : option (outcome Z * Message) :=
  match fuel with
  | O => None
  | S fuel =>
      let section := NewMessage in
      match data with
      | [] => Some (Error (errDecodingOf io_EOF), m)
      | n :: buf =>
          let keyLen := int_of_byte n in
          let '(key, buf) := Next keyLen buf in
          let key := string_of key in
          if bool_decide (len key ≠ keyLen) then Some (Error errBadKey, m) else
          match buf with
          | [] => Some (Error (errDecodingOf io_EOF), m)
          | b :: buf =>
              let count := keyLen + 2 in
              match sectionLoop fuel section buf b count with
              | None => None
              | Some (Ok count, section) =>
                  match addItem m key (IMessage (Some section)) with
                  | (m', Some err) => Some (Error err, m')
                  | (m', None) => Some (Ok count, m')
                  end
              | Some (Error e, _) => Some (Error e, m)
              | Some (Panic, _) => Some (Panic, m)
              end
          end
      end
  end
with sectionLoop (fuel : nat) (section : Message) (buf : list byte) (b : byte)
    (count : Z) {struct fuel} : option (outcome Z * Message) :=
  match fuel with
  | O => None
  | S fuel =>
      if bool_decide (b = msgSectionEnd) then Some (Ok count, section) else
      match sectionSwitch (decodeSection_ fuel) section buf b with
      | None => None
      | Some (Ok n, section) =>
          let buf := (Next n buf).2 in
          let count := count + n in
          match buf with
          | [] => Some (Error (errDecodingOf io_EOF), section)
          | b :: buf => sectionLoop fuel section buf b (count + 1)
          end
      | Some (Error e, section) => Some (Error e, section)
      | Some (Panic, section) => Some (Panic, section)
      end
  end.

Definition decodeSection (m : Message) (data : list byte)
  : outcome Z * Message :=
  default (Panic, m) (decodeSection_ (S (length data)) m data).

(** [buf.Next(n)] after an element decoder returned [n]. *)
Definition advance (r : outcome Z * Message) (buf : list byte)
  : outcome (list byte) * Message :=
  match r with
  | (Ok n, m) => (Ok (Next n buf).2, m)
  | (Error e, m) => (Error e, m)
  | (Panic, m) => (Panic, m)
  end.

(** The switch on the type byte in the loop of [decode]: it has no default
    case, so on any other byte nothing is done. *)
Definition messageSwitch (m : Message) (buf : list byte) (b : byte)
  : outcome (list byte) * Message :=
  if bool_decide (b = msgKeyValue) then advance (decodeKeyValue m buf) buf
  else if bool_decide (b = msgListStart) then advance (decodeList m buf) buf
  else if bool_decide (b = msgSectionStart) then advance (decodeSection m buf) buf
  else (Ok buf, m).

(** The loop [for buf.Len() > 0] of [decode].  At the end of the buffer
    [ReadByte] leaves [b] zero and [io.EOF] is let through. *)
Fixpoint decodeLoop (fuel : nat) (m : Message) (buf : list byte) (b : byte)
  : option (outcome unit * Message) :=
  match fuel with
  | O => None
  | S fuel =>
      if bool_decide (length buf = 0%nat) then Some (Ok tt, m) else
      match messageSwitch m buf b with
      | (Ok buf, m) =>
          match buf with
          | [] => decodeLoop fuel m [] x00
          | b :: buf => decodeLoop fuel m buf b
          end
      | (Error e, m) => Some (Error e, m)
      | (Panic, m) => Some (Panic, m)
      end
  end.

Definition decode (m : Message) (data : list byte) : outcome unit * Message :=
  let '(b, buf) := match data with
                   | [] => (x00, [])
                   | b :: buf => (b, buf)
                   end in
  default (Panic, m) (decodeLoop (S (length data)) m buf b).

(** ** Structural equality

    Structural view of a value: a list is the sequence of its items, so
    the nil and the empty slice are one; applied through a whole tree. *)
Fixpoint canon (v : iface) : iface :=
  match v with
  | IStrings l => IStrings (match items l with [] => None | i => Some i end)
  | IMessage (Some m) => IMessage (Some (mkMessage (keys m) (canon <$> data m)))
  | _ => v
  end.

Definition canonical (m : Message) : Message :=
  mkMessage (keys m) (canon <$> data m).

(** Structural, order-sensitive equality of messages. *)
Definition structurally_equal (m1 m2 : Message) : Prop :=
  canonical m1 = canonical m2.

(** ** Auxiliary definitions of the proofs

    The message [addItem] builds from [acc] when it is given, in order, the
    elements of [s] under the keys [ks] as a decoder returns them. *)
Definition addAll (s acc : Message) (ks : list string) : Message :=
  foldl (fun a k => match data s !! k with
                    | Some v => (addItem a k (canon v)).1
                    | None => a
                    end) acc ks.

(** Sum of a list of Go ints. *)
Definition sumZ (l : list Z) : Z := foldr Z.add 0 l.

(** [decodeSection] undoes [encodeSection] on the section [s]: the statement
    carried through the induction on the nesting depth. *)
Definition section_round_trip (s : Message) : Prop :=
  ∀ body fuel m k rest,
    wellFormed s = true ->
    encode s = Ok body ->
    len k <= 255 ->
    (length (bytes_of k) + length body + length rest + 2 < fuel)%nat ->
    decodeSection_ fuel m
      (uint8 (len k) :: bytes_of k ++ body ++ msgSectionEnd :: rest)
    = Some (Ok (len k + 2 + Z.of_nat (length body)),
            (addItem m k (IMessage (Some (canonical s)))).1).

(** ** Records seen through reflection

    A [reflect.Value] of one of the field types the mapper distinguishes,
    together with the struct fields' tags.  [RScalar] stands for the
    comparable kinds the mapper has no case for (bool, integers, floats);
    [RMap] for the kinds Map and Func, whose values cannot be compared with
    [==].  Strings are of type [string]; arrays, slices of another element
    type and embedded fields are not modelled.  A field carries the value of
    the [vici] key of its tag (empty when it has none) and whether its name
    is exported. *)
Inductive rvalue : Type :=
  | RString (s : string)                    (* kind String *)
  | RStrings (l : option (list string))     (* kind Slice: a []string *)
  | RMessage (p : option Message)           (* kind Ptr: a *Message *)
  | RStructPtr (p : option (list field))    (* kind Ptr: a pointer to a struct *)
  | RStruct (fs : list field)               (* kind Struct *)
  | RScalar (zero : bool)                   (* another kind; [zero]: holds its zero value *)
  | RMap (zero : bool)                      (* kind Map or Func; [zero]: it is nil *)
with field : Type :=
  | mkField (tag : string) (exported : bool) (value : rvalue).

Definition ftag (f : field) : string := let 'mkField t _ _ := f in t.
Definition fexported (f : field) : bool := let 'mkField _ e _ := f in e.
Definition fvalue (f : field) : rvalue := let 'mkField _ _ v := f in v.

Record messageTag : Type := mkTag { name : string; skip : bool }.

Definition newMessageTag (t : string) : messageTag :=
  if bool_decide (t = "-" ∨ t = "") then mkTag "" true else mkTag t false.

(** [rv.Interface() == reflect.Zero(rv.Type()).Interface()] for the kinds
    that reach the last line of [emptyMessageElement].  The two interface
    values have the same dynamic type; when that type is a map or a func
    type the comparison panics. *)
Definition equalsZero (rv : rvalue) : outcome bool :=
  match rv with
  | RString s => Ok (bool_decide (s = ""))
  | RMessage p => Ok (bool_decide (is_Some p → False))
  | RStructPtr p => Ok (bool_decide (is_Some p → False))
  | RScalar zero => Ok zero
  | RMap _ => Panic
  | RStrings _ | RStruct _ => Ok false
  end.

(** [ro]: the value was reached through an unexported field, so that
    [rv.Interface()] panics.  [z = z && emptyMessageElement(rv.Field(i))]
    does not evaluate the call once [z] is false. *)
Fixpoint emptyMessageElement (ro : bool) (rv : rvalue) {struct rv}
  : outcome bool :=
  match rv with
  | RStrings l => Ok (bool_decide (l = None))
  | RStruct fs =>
      (fix fields (z : bool) (fs : list field) {struct fs} : outcome bool :=
         match fs with
         | [] => Ok z
         | f :: fs =>
             if z then
               match emptyMessageElement (ro || negb (fexported f))
                       (fvalue f) with
               | Ok e => fields e fs
               | Error e => Error e
               | Panic => Panic
               end
             else fields false fs
         end) true fs
  | _ => if ro then Panic else equalsZero rv
  end.

Definition as_outcome (r : Message * option error) : outcome unit * Message :=
  match r with
  | (m, None) => (Ok tt, m)
  | (m, Some err) => (Error err, m)
  end.

(** The loop of [marshal] over the fields of a struct, with [marshalField]
    given. *)
Definition marshalFields
    (marshalField : Message -> string -> rvalue -> outcome unit * Message)
  : list field -> Message -> outcome unit * Message :=
  fix fields (fs : list field) (m : Message) {struct fs} :=
    match fs with
    | [] => (Ok tt, m)
    | f :: fs =>
        let mt := newMessageTag (ftag f) in
        if skip mt then fields fs m
        else if negb (fexported f) then fields fs m
        else
          match emptyMessageElement false (fvalue f) with
          | Ok true => fields fs m
          | Ok false =>
              match marshalField m (name mt) (fvalue f) with
              | (Ok _, m) => fields fs m
              | (Error e, m) => (Error e, m)
              | (Panic, m) => (Panic, m)
              end
          | Error e => (Error e, m)
          | Panic => (Panic, m)
          end
    end.

(** [marshalField]; its struct and struct-pointer cases run [marshal] on a
    new message. *)
Fixpoint marshalField (m : Message) (name : string) (rv : rvalue) {struct rv}
  : outcome unit * Message :=
  let nested (fs : option (list field)) :=
    match fs with
    | None => (Error errMarshalUnsupportedType, m)
    | Some fs =>
        match marshalFields marshalField fs NewMessage with
        | (Ok _, msg) => as_outcome (addItem m name (IMessage (Some msg)))
        | (Error e, _) => (Error e, m)
        | (Panic, _) => (Panic, m)
        end
    end in
  match rv with
  | RString s => as_outcome (addItem m name (IString s))
  | RStrings l => as_outcome (addItem m name (IStrings l))
  | RMessage p => as_outcome (addItem m name (IMessage p))
  | RStructPtr p => nested p
  | RStruct fs => nested (Some fs)
  | RScalar _ | RMap _ => (Error errMarshalUnsupportedType, m)
  end.

(** [marshal]: [v] must be a struct or a pointer to one.  A [*Message] is a
    pointer to a struct with two untagged fields. *)
Definition marshal (m : Message) (v : rvalue) : outcome unit * Message :=
  match v with
  | RStruct fs => marshalFields marshalField fs m
  | RStructPtr (Some fs) => marshalFields marshalField fs m
  | RMessage (Some _) => (Ok tt, m)
  | _ => (Error errMarshalUnsupportedType, m)
  end.

Definition MarshalMessage (v : rvalue) : outcome Message :=
  match marshal NewMessage v with
  | (Ok _, m) => Ok m
  | (Error e, _) => Error e
  | (Panic, _) => Panic
  end.

(** [reflect.Zero(rv.Type())]. *)
Fixpoint Zero (rv : rvalue) : rvalue :=
  match rv with
  | RString _ => RString ""
  | RStrings _ => RStrings None
  | RMessage _ => RMessage None
  | RStructPtr _ => RStructPtr None
  | RStruct fs =>
      RStruct (map (fun f => mkField (ftag f) (fexported f) (Zero (fvalue f))) fs)
  | RScalar _ => RScalar true
  | RMap _ => RMap true
  end.

Definition zeroField (f : field) : field :=
  mkField (ftag f) (fexported f) (Zero (fvalue f)).

(** The field as the loop of [unmarshal] finds it: [fresh] is set when the
    struct was just made by [reflect.New], so that it holds zero values. *)
Definition found (fresh : bool) (f : field) : field :=
  if fresh then zeroField f else f.

(** The loop of [unmarshal] over the fields of the struct [v] points to,
    with [unmarshalField] given; it returns the fields as the call leaves
    them.  The tag's [skip] is not consulted: a field that is not tagged is
    looked up under the empty name. *)
Definition unmarshalFields
    (unmarshalField : bool -> rvalue -> iface -> outcome unit * rvalue)
    (m : option Message) (fresh : bool)
  : list field -> outcome unit * list field :=
  fix fields (fs : list field) {struct fs} :=
    match fs with
    | [] => (Ok tt, [])
    | f :: fs =>
        match m with
        | None => (Panic, found fresh <$> (f :: fs))
        | Some msg =>
            let tag := newMessageTag (ftag f) in
            match data msg !! name tag with
            | None => let '(r, fs') := fields fs in (r, found fresh f :: fs')
            | Some value =>
                if negb (fexported f) then
                  let '(r, fs') := fields fs in (r, found fresh f :: fs')
                else
                  match unmarshalField fresh (fvalue f) value with
                  | (Ok _, v') =>
                      let '(r, fs') := fields fs in
                      (r, mkField (ftag f) (fexported f) v' :: fs')
                  | (Error e, v') =>
                      (Error e, mkField (ftag f) (fexported f) v'
                                  :: (found fresh <$> fs))
                  | (Panic, v') =>
                      (Panic, mkField (ftag f) (fexported f) v'
                                :: (found fresh <$> fs))
                  end
            end
        end
    end.

(** [unmarshalField], returning the field as the call leaves it.  With
    [fresh] the field is read as the zero value of its type.  [field.Set]
    panics on a value that is not assignable to the field's type. *)
Fixpoint unmarshalField (fresh : bool) (field : rvalue) (rv : iface)
  {struct field} : outcome unit * rvalue :=
  let cur := if fresh then Zero field else field in
  match field with
  | RString _ =>
      match rv with
      | IString s => (Ok tt, RString s)
      | _ => (Error errUnmarshalTypeMismatch, cur)
      end
  | RStrings _ =>
      match rv with
      | IStrings l => (Ok tt, RStrings l)
      | _ => (Error errUnmarshalTypeMismatch, cur)
      end
  | RMessage _ =>
      match rv with
      | IMessage p => (Ok tt, RMessage p)
      | _ => (Panic, cur)
      end
  | RStructPtr p =>
      match rv with
      | IMessage msg =>
          match p with
          | None => (Error errUnmarshalBadType, cur)
          | Some fs =>
              if fresh then (Error errUnmarshalBadType, cur) else
              let '(r, fs') := unmarshalFields unmarshalField msg false fs in
              (r, RStructPtr (Some fs'))
          end
      | _ => (Error errUnmarshalNonMessage, cur)
      end
  | RStruct fs =>
      match rv with
      | IMessage msg =>
          match unmarshalFields unmarshalField msg true fs with
          | (Ok _, fs') => (Ok tt, RStruct fs')
          | (Error e, _) => (Error e, cur)
          | (Panic, _) => (Panic, cur)
          end
      | _ => (Error errUnmarshalNonMessage, cur)
      end
  | RScalar _ | RMap _ => (Ok tt, cur)
  end.

(** [unmarshal]: [v] must be a non-nil pointer; the result is the value [v]
    points to after the call. *)
Definition unmarshal (m : option Message) (v : rvalue) : outcome unit * rvalue :=
  match v with
  | RStructPtr (Some fs) =>
      let '(r, fs') := unmarshalFields unmarshalField m false fs in
      (r, RStructPtr (Some fs'))
  | RMessage (Some t) =>
      match m with
      | Some _ => (Ok tt, v)
      | None => (Panic, v)
      end
  | _ => (Error errUnmarshalBadType, v)
  end.

Definition UnmarshalMessage (m : Message) (v : rvalue) : outcome unit * rvalue :=
  unmarshal (Some m) v.


(** The errors [decode] is seen to return. *)
Definition decodingError (e : error) : bool :=
  match e with
  | errBadKey | errBadValue | errEndOfBuffer | errExpectedBeginning => true
  | errDecodingOf io_EOF => true
  | _ => false
  end.

(** An outcome of a decoder: a result, or one of those errors. *)
Definition decoded {A : Type} (r : outcome A) : Prop :=
  match r with
  | Ok _ => True
  | Error e => decodingError e = true
  | Panic => False
  end.

(** A record that the mapper carries both ways: its fields are tagged with
    distinct names and exported, and each holds a string, a []string, a
    [*Message], a nil pointer to a struct, a zero scalar or, recursively,
    such a record. *)
Fixpoint mappable (rv : rvalue) : bool :=
  match rv with
  | RString _ | RStrings _ | RMessage _ => true
  | RStructPtr p => match p with None => true | Some _ => false end
  | RStruct fs =>
      bool_decide (NoDup (ftag <$> fs))
      && forallb (fun f => negb (skip (newMessageTag (ftag f)))
                           && fexported f && mappable (fvalue f)) fs
  | RScalar zero => zero
  | RMap _ => false
  end.

(** The statement carried through the induction on records: [marshal]
    adds the fields [fs] to a message that holds none of their tags, and
    [unmarshal] reads them back into a new struct from any message that
    holds the same elements under those tags. *)
Definition marshal_unmarshal (fs : list field) : Prop :=
  ∀ m,
    consistent m ->
    (∀ f, f ∈ fs -> data m !! ftag f = None) ->
    ∃ m',
      marshalFields marshalField fs m = (Ok tt, m')
      ∧ consistent m'
      ∧ (∀ j, j ∉ ftag <$> fs -> data m' !! j = data m !! j)
      ∧ ∀ m'',
          (∀ f, f ∈ fs -> data m'' !! ftag f = data m' !! ftag f) ->
          unmarshalFields unmarshalField (Some m'') true fs = (Ok tt, fs).

(** The fields that the loop of [marshal] hands to [marshalField]: tagged
    with a name, exported, and not found empty. *)
Definition emitted (f : field) : bool :=
  negb (skip (newMessageTag (ftag f)))
  && fexported f
  && match emptyMessageElement false (fvalue f) with
     | Ok false => true
     | _ => false
     end.

(** The key list after [addItem] stored a value under [k]. *)
Definition addKey (ks : list string) (k : string) : list string :=
  if bool_decide (k ∈ ks) then ks else ks ++ [k].

(** A record that goes over the wire and back unchanged: a mappable record
    whose tags have 1 to 255 bytes, whose strings and list items have at
    most 65535 bytes, with no allocated empty []string and no [*Message]
    other than nil. *)
Fixpoint wireable (rv : rvalue) : bool :=
  match rv with
  | RString s => value_ok s
  | RStrings l =>
      match l with
      | Some [] => false
      | _ => forallb value_ok (items l)
      end
  | RMessage p | RStructPtr p => match p with None => true | Some _ => false end
  | RStruct fs =>
      bool_decide (NoDup (ftag <$> fs))
      && forallb (fun f => key_ok (ftag f)
                           && negb (skip (newMessageTag (ftag f)))
                           && fexported f && wireable (fvalue f)) fs
  | RScalar zero => zero
  | RMap _ => false
  end.

(** A value within the bounds of the wire format that a decoder returns as
    it is. *)
Definition plain (v : iface) : Prop :=
  tree key_ok value_ok v = true ∧ canon v = v.

(** ** The wire syntax

    An element as it stands on the wire: a key-value pair, a list of items,
    or a section of elements.  [frame] gives its bytes, which are those the
    encoders write ([frame_encodeKeyValue], [frame_encodeList],
    [frame_encodeSection]); [bounded] says that its key lengths fit the
    length byte and its value lengths the two length bytes, at every level.
    Keys may be empty or repeated. *)
Inductive element : Type :=
  | EKeyValue (key value : string)
  | EList (key : string) (list_ : list string)
  | ESection (key : string) (elements : list element).

Fixpoint frame (e : element) : list byte :=
  match e with
  | EKeyValue k v =>
      [msgKeyValue] ++ [uint8 (len k)] ++ bytes_of k
        ++ PutUint16 (uint16 (len v)) ++ bytes_of v
  | EList k l =>
      [msgListStart] ++ [uint8 (len k)] ++ bytes_of k
        ++ (l ≫= encodeItem) ++ [msgListEnd]
  | ESection k es =>
      [msgSectionStart] ++ [uint8 (len k)] ++ bytes_of k
        ++ (es ≫= frame) ++ [msgSectionEnd]
  end.

Fixpoint bounded (e : element) : bool :=
  match e with
  | EKeyValue k v => bool_decide (len k <= 255) && value_ok v
  | EList k l => bool_decide (len k <= 255) && forallb value_ok l
  | ESection k es => bool_decide (len k <= 255) && forallb bounded es
  end.

(** What the loop of [decode] gets through at the top level: a whole
    element, or a byte that is no type byte of an element, which its switch
    passes over. *)
Inductive chunk : Type :=
  | Whole (e : element)
  | Stray (b : byte).

Definition chunkBytes (c : chunk) : list byte :=
  match c with
  | Whole e => frame e
  | Stray b => [b]
  end.

Definition passed (c : chunk) : bool :=
  match c with
  | Whole e => bounded e
  | Stray b =>
      bool_decide (b ≠ msgKeyValue ∧ b ≠ msgListStart ∧ b ≠ msgSectionStart)
  end.

(** Sections that have been opened and not closed, the outermost first:
    for each one its key and the whole elements that it holds so far. *)
Definition opening (s : string * list element) : list byte :=
  [msgSectionStart] ++ [uint8 (len s.1)] ++ bytes_of s.1 ++ (s.2 ≫= frame).

Definition opened (path : list (string * list element)) : list byte :=
  path ≫= opening.

Definition openedOk (path : list (string * list element)) : bool :=
  forallb (fun s => bool_decide (len s.1 <= 255) && forallb bounded s.2) path.

(** The bytes [decode] has got through when it comes to an element that
    lies inside the open sections [path], after the chunks [top]. *)
Definition consumed (top : list chunk) (path : list (string * list element))
  : list byte :=
  (top ≫= chunkBytes) ++ opened path.

(** The element decoder for the type byte [t] accepts the frame of [e]:
    statement carried through the induction on elements. *)
Definition decodes (e : element) : Prop :=
  ∀ fuel acc rest,
    (length (frame e) + length rest <= fuel)%nat ->
    ∃ t tail acc',
      frame e = t :: tail
      ∧ t ∈ [msgKeyValue; msgListStart; msgSectionStart]
      ∧ sectionSwitch (decodeSection_ fuel) acc (tail ++ rest) t
        = Some (Ok (Z.of_nat (length tail)), acc').

(** The element that starts with the type byte [t] and goes on with [tail]
    is refused with the error [e], whatever the message decoded into. *)
Definition refused (t : byte) (tail : list byte) (e : error) : Prop :=
  t ∈ [msgKeyValue; msgListStart; msgSectionStart]
  ∧ ∀ fuel acc,
      (length tail < fuel)%nat ->
      ∃ acc', sectionSwitch (decodeSection_ fuel) acc tail t
              = Some (Error e, acc').

(** * Theorems *)

Lemma NewMessage_consistent : consistent NewMessage.
Proof.
  split; [constructor|]. intros k; cbn. rewrite lookup_empty.
  split; [intros H; inversion H | intros [? ?]; discriminate].
Qed.

Lemma addItem_supported m k v :
  supported v = true ->
  addItem m k v =
    (if bool_decide (is_Some (data m !! k)) then assign m k v
     else mkMessage (keys m ++ [k]) (<[k := v]> (data m)), None).
Proof. destruct v; cbn; intros; try discriminate; reflexivity. Qed.

Lemma addItem_unsupported m k v :
  supported v = false -> addItem m k v = (m, Some errUnsupportedType).
Proof. destruct v; cbn; intros; try discriminate; reflexivity. Qed.

Lemma addItem_consistent m k v :
  consistent m -> consistent (addItem m k v).1.
Proof.
  intros [Hnd Hdom]. destruct (supported v) eqn:Hs.
  2:{ rewrite addItem_unsupported by done. done. }
  rewrite addItem_supported by done. unfold assign, consistent.
  case_bool_decide as Hex; cbn.
  - split; [done|]. intros j. destruct (decide (j = k)) as [->|Hne].
    + rewrite lookup_insert_eq. rewrite Hdom. split; [eauto|done].
    + rewrite lookup_insert_ne by done. apply Hdom.
  - assert (k ∉ keys m) as Hnot by (rewrite Hdom; done).
    split.
    + apply NoDup_app. split_and!; [done| |apply NoDup_singleton].
      intros x Hx ->%list_elem_of_singleton. done.
    + intros j. rewrite elem_of_app, list_elem_of_singleton.
      destruct (decide (j = k)) as [->|Hne].
      * rewrite lookup_insert_eq. split; eauto.
      * rewrite lookup_insert_ne by done. rewrite Hdom.
        split; [intros [?|?]; [done|congruence] | eauto].
Qed.

(** C8. [Set] with a supported value on a key the message already holds
    replaces the element stored at that key and leaves [Keys] the very same
    sequence; on a key it does not hold, the key becomes the last of [Keys].
    In both cases the call succeeds and no other key's element changes. *)
Theorem Set_overwrite_keeps_order (m : Message) (k : string) (v : iface) :
  supported v = true ->
  (Set_ m k v).2 = None
  ∧ Get (Set_ m k v).1 k = Some v
  ∧ (∀ j, j ≠ k -> Get (Set_ m k v).1 j = Get m j)
  ∧ (is_Some (Get m k) -> Keys (Set_ m k v).1 = Keys m)
  ∧ (Get m k = None -> Keys (Set_ m k v).1 = Keys m ++ [k]).
Proof.
  intros Hs. unfold Set_, Get, Keys. rewrite addItem_supported by done.
  unfold assign. case_bool_decide as Hex; cbn.
  - split_and!; [done|apply lookup_insert_eq| |done|].
    + intros j Hj. by rewrite lookup_insert_ne.
    + intros Hn. rewrite Hn in Hex. by destruct Hex.
  - split_and!; [done|apply lookup_insert_eq| | |done].
    + intros j Hj. by rewrite lookup_insert_ne.
    + intros Hsome. done.
Qed.

Lemma Set_overwrite_keeps_order_witness :
  let m := (Set_ (Set_ NewMessage "a" (IString "1")).1 "b" (IString "2")).1 in
  Keys (Set_ m "a" (IStrings (Some ["x"]))).1 = ["a"; "b"]
  ∧ Keys (Set_ m "c" (IString "3")).1 = ["a"; "b"; "c"].
Proof.
  intros m. split.
  - apply (Set_overwrite_keeps_order m "a" (IStrings (Some ["x"]))).
    + reflexivity.
    + vm_compute. eauto.
  - apply (Set_overwrite_keeps_order m "c" (IString "3")).
    + reflexivity.
    + reflexivity.
Defined.

(** C10. When [Set] fails with [errUnsupportedType] the message is left as
    it was: same [Keys], same element under every key. *)
Theorem Set_failure_atomic (m : Message) (k : string) (v : iface) :
  (Set_ m k v).2 = Some errUnsupportedType ->
  (Set_ m k v).1 = m.
Proof.
  unfold Set_. destruct (supported v) eqn:Hs.
  - rewrite addItem_supported by done. discriminate.
  - rewrite addItem_unsupported by done. done.
Qed.

Lemma Set_failure_atomic_witness :
  let m := (Set_ NewMessage "a" (IString "1")).1 in
  (Set_ m "a" IOther).1 = m.
Proof.
  intros m. apply (Set_failure_atomic m "a" IOther). reflexivity.
Defined.


(** ** Wire integers and strings *)

Lemma int_of_byte_range b : 0 <= int_of_byte b <= 255.
Proof. unfold int_of_byte. pose proof (Byte.to_N_bounded b). lia. Qed.

Lemma uint8_int_of_byte b : uint8 (int_of_byte b) = b.
Proof.
  unfold uint8. rewrite Z.mod_small by (pose proof (int_of_byte_range b); lia).
  unfold int_of_byte. rewrite N2Z.id, Byte.of_to_N. reflexivity.
Qed.

Lemma int_of_byte_uint8 n : int_of_byte (uint8 n) = n mod 256.
Proof.
  unfold uint8, int_of_byte.
  pose proof (Z.mod_pos_bound n 256 eq_refl) as Hb.
  destruct (Byte.of_N _) as [b|] eqn:E; cbn.
  - apply Byte.to_of_N in E. rewrite E. lia.
  - apply Byte.of_N_None_iff in E. lia.
Qed.

Lemma Uint16_PutUint16 v : Uint16 (PutUint16 v) = v mod 65536.
Proof.
  unfold PutUint16, Uint16. rewrite !int_of_byte_uint8.
  change 65536 with (256 * 256). rewrite Z.rem_mul_r by lia. lia.
Qed.

Lemma string_of_bytes_of s : string_of (bytes_of s) = s.
Proof. apply String.string_of_list_byte_of_string. Qed.

Lemma bytes_of_string_of b : bytes_of (string_of b) = b.
Proof. apply String.list_byte_of_string_of_list_byte. Qed.

Lemma length_bytes_of s : Z.of_nat (length (bytes_of s)) = len s.
Proof.
  unfold len, bytes_of, String.list_byte_of_string. f_equal.
  rewrite length_map. induction s as [|a s IH]; cbn; [done|by rewrite IH].
Qed.

Lemma len_string_of b : len (string_of b) = Z.of_nat (length b).
Proof. by rewrite <- length_bytes_of, bytes_of_string_of. Qed.

Lemma len_nonneg s : 0 <= len s.
Proof. unfold len. lia. Qed.

(** ** Encoding: unfolding equations *)

Lemma encodeElements_ext (f g : string -> outcome (list byte)) ks :
  (∀ k, k ∈ ks -> f k = g k) -> encodeElements f ks = encodeElements g ks.
Proof.
  induction ks as [|k ks IH]; intros Hfg; cbn; [done|].
  rewrite (Hfg k) by left. rewrite IH; [done|].
  intros j Hj. apply Hfg. by right.
Qed.

Lemma encodeValue_section (p : option Message) (k : string) :
  encodeValue (IMessage p) k = encodeSection k p.
Proof.
  destruct p as [section|]; [|done]. cbn [encodeValue encodeSection].
  unfold encode.
  rewrite (encodeElements_ext _ (encodeElement section)); [done|].
  intros j _. unfold encodeElement. rewrite lookup_fmap.
  by destruct (data section !! j).
Qed.

Lemma encodeElements_app enc ks1 ks2 :
  encodeElements enc (ks1 ++ ks2) =
    match encodeElements enc ks1 with
    | Ok b1 =>
        match encodeElements enc ks2 with
        | Ok b2 => Ok (b1 ++ b2)
        | Error e => Error e
        | Panic => Panic
        end
    | Error e => Error e
    | Panic => Panic
    end.
Proof.
  induction ks1 as [|k ks1 IH]; cbn.
  - by destruct (encodeElements enc ks2).
  - destruct (enc k); [|done..]. rewrite IH.
    destruct (encodeElements enc ks1); [|done..].
    destruct (encodeElements enc ks2); [|done..]. by rewrite app_assoc.
Qed.

(** ** Induction on message trees *)

Lemma depth_lookup m k v :
  data m !! k = Some v -> (depth v < depth (IMessage (Some m)))%nat.
Proof.
  intros Hk. cbn [depth].
  rewrite (map_fold_delete_L _ _ k v (data m)); [lia| |done].
  intros. lia.
Qed.

Lemma Message_ind_depth (P : Message -> Prop) :
  (∀ m, (∀ k s, data m !! k = Some (IMessage (Some s)) -> P s) -> P m) ->
  ∀ m, P m.
Proof.
  intros Hstep m.
  remember (depth (IMessage (Some m))) as n eqn:Hn.
  revert m Hn. induction (lt_wf n) as [n _ IH]. intros m ->.
  apply Hstep. intros k s Hk. eapply IH; [|done].
  by apply depth_lookup in Hk.
Qed.

Lemma tree_message p q m :
  tree p q (IMessage (Some m)) = true <->
  consistent m
  ∧ ∀ k v, data m !! k = Some v -> p k = true ∧ tree p q v = true.
Proof.
  cbn [tree]. rewrite !andb_true_iff, !bool_decide_eq_true, forallb_forall.
  setoid_rewrite <- list_elem_of_In. setoid_rewrite andb_true_iff.
  setoid_rewrite lookup_fmap. split.
  - intros [[Hnd Hsz] Hall].
    assert (list_to_set (keys m) = dom (data m) :> gset string) as Hdom.
    { apply set_subseteq_size_eq.
      - intros k Hk%elem_of_list_to_set. apply elem_of_dom.
        destruct (Hall k Hk) as [_ Hsub].
        destruct (data m !! k); [eauto|discriminate].
      - rewrite size_dom, size_list_to_set by done. lia. }
    split; [split; [done|]|].
    + intros k. by rewrite <- elem_of_dom, <- Hdom, elem_of_list_to_set.
    + intros k v Hk. assert (k ∈ keys m) as Hin.
      { rewrite <- (elem_of_list_to_set (C:=gset string)), Hdom.
        apply elem_of_dom. eauto. }
      destruct (Hall k Hin) as [Hp Hsub]. by rewrite Hk in Hsub.
  - intros [[Hnd Hdom] Hall]. split_and!; [done| |].
    + rewrite <- size_dom, <- (size_list_to_set (C:=gset string)) by done.
      f_equal. apply set_eq. intros k.
      by rewrite elem_of_dom, <- Hdom, elem_of_list_to_set.
    + intros k [v Hk]%Hdom. destruct (Hall k v Hk) as [Hp Ht].
      by rewrite Hk.
Qed.

(** ** Encoding is total on message trees *)

Lemma encodeElements_ok enc ks :
  (∀ k, k ∈ ks -> ∃ b, enc k = Ok b) -> ∃ bs, encodeElements enc ks = Ok bs.
Proof.
  induction ks as [|k ks IH]; intros Hall; cbn; [eauto|].
  destruct (Hall k) as [b ->]; [left|].
  destruct IH as [bs ->]; [|eauto].
  intros j Hj. apply Hall. by right.
Qed.

Lemma encode_tree_ok p q m :
  tree p q (IMessage (Some m)) = true -> ∃ bs, encode m = Ok bs.
Proof.
  induction m as [m IH] using Message_ind_depth.
  intros [[Hnd Hdom] Hall]%tree_message.
  apply encodeElements_ok. intros k [v Hk]%Hdom.
  unfold encodeElement. rewrite Hk.
  destruct (Hall k v Hk) as [_ Hv].
  destruct v as [s|l| |[s|]| |]; try discriminate; [by eexists..|].
  rewrite encodeValue_section. cbn.
  destruct (IH k s Hk Hv) as [body ->]. eauto.
Qed.

Lemma encodeValue_frame k v bs :
  encodeValue v k = Ok bs ->
  ∃ t rest, bs = t :: uint8 (len k) :: bytes_of k ++ rest.
Proof.
  destruct v as [s|l| |[s|]| |]; try discriminate.
  - intros [= <-]. by eexists _, _.
  - intros [= <-]. by eexists _, _.
  - rewrite encodeValue_section. cbn. destruct (encode s); [|done..].
    intros [= <-]. by eexists _, _.
Qed.

(** C3 (as the code has it).  [encode] never looks at the length of a key:
    on every message made of values, lists and non-nil sections it returns
    bytes, and the frame of each element starts with its type byte, the
    key's length reduced modulo 256 in one byte, and the whole key. *)
Theorem encode_key_length_unchecked (m : Message) :
  encodable m = true ->
  (∃ bs, encode m = Ok bs)
  ∧ ∀ k v, Get m k = Some v ->
      ∃ t rest, encodeValue v k = Ok (t :: uint8 (len k) :: bytes_of k ++ rest)
                ∧ int_of_byte (uint8 (len k)) = len k mod 256.
Proof.
  intros Hm. split; [by eapply encode_tree_ok|].
  intros k v Hk. apply tree_message in Hm as [_ Hall].
  destruct (Hall k v Hk) as [_ Hv].
  assert (∃ bs, encodeValue v k = Ok bs) as [bs Hbs].
  { destruct v as [s|l| |[s|]| |]; try discriminate; [by eexists..|].
    rewrite encodeValue_section. cbn.
    destruct (encode_tree_ok _ _ s Hv) as [body ->]. eauto. }
  destruct (encodeValue_frame k v bs Hbs) as (t & rest & ->).
  exists t, rest. split; [done|apply int_of_byte_uint8].
Qed.

Lemma encode_key_length_unchecked_witness :
  ∃ bs, encode (Set_ NewMessage "" (IString "v")).1 = Ok bs.
Proof.
  apply (encode_key_length_unchecked (Set_ NewMessage "" (IString "v")).1).
  vm_compute. reflexivity.
Defined.

(** C3, counterexample.  A message whose only key is empty, and one whose
    only key has 256 bytes, are encoded without error; the second frame
    carries the key length 0. *)
Lemma encode_bad_key_counterexample :
  encode (Set_ NewMessage "" (IString "v")).1 = Ok [x03; x00; x00; x01; x76]
  ∧ ∃ rest,
      encode (Set_ NewMessage (string_of (replicate 256 x6b)) (IString "")).1
      = Ok (x03 :: x00 :: replicate 256 x6b ++ rest).
Proof.
  split; [vm_compute; reflexivity|].
  exists [x00; x00]. vm_compute. reflexivity.
Qed.

(** ** Lengths of the encodings *)

Lemma length_PutUint16 v : length (PutUint16 v) = 2%nat.
Proof. done. Qed.

Lemma length_encodeItem item :
  Z.of_nat (length (encodeItem item)) = 3 + len item.
Proof.
  unfold encodeItem. rewrite !length_app, length_PutUint16. cbn [length].
  pose proof (length_bytes_of item). lia.
Qed.

Lemma length_encodeItems l :
  Z.of_nat (length (l ≫= encodeItem))
  = sumZ ((fun item => 3 + len item) <$> l).
Proof.
  induction l as [|item l IH]; [done|].
  rewrite bind_cons, length_app, fmap_cons. cbn [sumZ foldr].
  fold (sumZ ((fun item => 3 + len item) <$> l)).
  pose proof (length_encodeItem item). lia.
Qed.

(** C7 (as the code has it).  The encoding of a key-value element has
    [4 + len key + len value] bytes; that of a list has
    [3 + len key + sum (3 + len item)] bytes, the three being the list start,
    the key length and the list end; that of a section has
    [3 + len key + len (encode body)] bytes. *)
Theorem element_length (k : string) (v : iface) (bs : list byte) :
  encodeValue v k = Ok bs ->
  match v with
  | IString value => Z.of_nat (length bs) = 4 + len k + len value
  | IStrings l =>
      Z.of_nat (length bs)
      = 3 + len k + sumZ ((fun item => 3 + len item) <$> items l)
  | IMessage (Some body) =>
      ∃ enc, encode body = Ok enc
             ∧ Z.of_nat (length bs) = 3 + len k + Z.of_nat (length enc)
  | _ => False
  end.
Proof.
  destruct v as [s|l| |[s|]| |]; try discriminate.
  - intros [= <-]. cbn [app length]. rewrite !length_app. cbn [length].
    pose proof (length_bytes_of k). pose proof (length_bytes_of s). lia.
  - intros [= <-]. cbn [app length]. rewrite !length_app. cbn [length].
    pose proof (length_bytes_of k).
    pose proof (length_encodeItems (items l)). lia.
  - rewrite encodeValue_section. cbn.
    destruct (encode s) as [body| |]; [|done..].
    intros [= <-]. exists body. split; [done|].
    cbn [app length]. rewrite !length_app. cbn [length].
    pose proof (length_bytes_of k). lia.
Qed.

Lemma element_length_witness :
  let inner := (Set_ NewMessage "inner" (IString "x")).1 in
  ∃ enc, encode inner = Ok enc
         ∧ Z.of_nat (length [x01; x05; x6f; x75; x74; x65; x72; x03; x05; x69;
                             x6e; x6e; x65; x72; x00; x01; x78; x02])
           = 3 + len "outer" + Z.of_nat (length enc).
Proof.
  intros inner.
  apply (element_length "outer" (IMessage (Some inner))).
  vm_compute. reflexivity.
Defined.

(** C7, counterexample.  The list ["ks" -> [a, b]] is encoded in 13 bytes
    and the section ["outer" -> {"inner" -> x}] in 18, one less than
    [3 + len key + ... + 1] in both cases. *)
Lemma element_length_counterexample :
  (∃ bs, encodeList "ks" (Some ["a"; "b"]) = Ok bs
         ∧ Z.of_nat (length bs) = 13
         ∧ 13 ≠ 3 + len "ks" + ((3 + len "a") + (3 + len "b")) + 1)
  ∧ (∃ bs body,
        encodeSection "outer" (Some (Set_ NewMessage "inner" (IString "x")).1)
        = Ok bs
        ∧ encode (Set_ NewMessage "inner" (IString "x")).1 = Ok body
        ∧ Z.of_nat (length bs) = 18
        ∧ 18 ≠ 3 + len "outer" + Z.of_nat (length body) + 1).
Proof.
  split.
  - eexists. split; [reflexivity|]. split; [reflexivity|]. vm_compute. done.
  - eexists _, _. split; [vm_compute; reflexivity|].
    split; [vm_compute; reflexivity|]. split; [reflexivity|].
    vm_compute. done.
Qed.

(** ** The command result *)

(** C6 (as the code has it).  [Err] returns nil exactly when the message has
    no element named [success] or that element is the string ["yes"]; in
    every other case, a list or a section under [success] included, it fails
    with the command-failed error formatted from [m.data["errmsg"]]: the
    text carried is the contents of a string [errmsg], and ["<nil>"] when
    there is no [errmsg]. *)
Theorem Err_spec (m : Message) :
  (Err m = None <->
     Get m "success" = None ∨ Get m "success" = Some (IString "yes"))
  ∧ (Err m ≠ None -> Err m = Some (errCommandFailedOf (Get m "errmsg")))
  ∧ (∀ s, carried_text (errCommandFailedOf (Some (IString s))) = Some s)
  ∧ carried_text (errCommandFailedOf None) = Some "<nil>".
Proof.
  unfold Err, Get. split_and!; [|by repeat case_match|done|done].
  destruct (data m !! "success") as [x|] eqn:Hx; [|by split; [left|]].
  destruct x as [s| | | | |]; cbn; try (split; [done|intros [?|?]; done]).
  case_bool_decide as Hs.
  - subst s. split; [by right|done].
  - split; [done|]. intros [?|[= ->]]; done.
Qed.

Lemma Err_spec_witness :
  let m := (Set_ (Set_ NewMessage "success" (IString "no")).1
                 "errmsg" (IString "no such conn")).1 in
  Err m = Some (errCommandFailedOf (Get m "errmsg"))
  ∧ carried_text (errCommandFailedOf (Get m "errmsg")) = Some "no such conn".
Proof.
  intros m. split.
  - apply (Err_spec m). vm_compute. discriminate.
  - apply (Err_spec m).
Defined.

(** C6, counterexample.  A message whose [success] element is the list
    [[yes]] has no value element named [success], and [Err] fails on it; a
    message with [success = no] and no [errmsg] fails with the text
    ["<nil>"], which is not empty. *)
Lemma Err_counterexample :
  let m1 := (Set_ NewMessage "success" (IStrings (Some ["yes"]))).1 in
  let m2 := (Set_ NewMessage "success" (IString "no")).1 in
  ((∀ s, Get m1 "success" ≠ Some (IString s)) ∧ Err m1 ≠ None)
  ∧ (Get m2 "errmsg" = None
     ∧ ∃ e, Err m2 = Some e ∧ carried_text e = Some "<nil>"
            ∧ carried_text e ≠ Some "").
Proof.
  intros m1 m2. split.
  - split; [intros s; vm_compute; discriminate|vm_compute; discriminate].
  - split; [reflexivity|]. eexists. split; [vm_compute; reflexivity|].
    split; [reflexivity|discriminate].
Qed.

(** ** Decoding what the encoders wrote *)

Lemma Next_app n l rest :
  n = Z.of_nat (length l) -> Next n (l ++ rest) = (l, rest).
Proof.
  intros ->. unfold Next. rewrite Nat2Z.id.
  by rewrite take_app_length, drop_app_length.
Qed.

Lemma Next_short n buf :
  Z.of_nat (length buf) < n -> Z.of_nat (length (Next n buf).1) ≠ n.
Proof. unfold Next. cbn. rewrite length_take. lia. Qed.

Lemma keyLen_uint8 k : len k <= 255 -> int_of_byte (uint8 (len k)) = len k.
Proof.
  intros Hk. rewrite int_of_byte_uint8.
  apply Z.mod_small. pose proof (len_nonneg k). lia.
Qed.

Lemma valueLen_PutUint16 v :
  len v <= 65535 -> Uint16 (PutUint16 (uint16 (len v))) = len v.
Proof.
  intros Hv. rewrite Uint16_PutUint16. unfold uint16.
  rewrite Z.mod_mod by lia. apply Z.mod_small. pose proof (len_nonneg v). lia.
Qed.

(** The steps of a decoder over a key, and over a value, that an encoder
    wrote: the length byte(s) give back the length, [Next] the bytes. *)
Ltac read_key :=
  rewrite keyLen_uint8 by done;
  rewrite Next_app by (by rewrite length_bytes_of);
  rewrite string_of_bytes_of, bool_decide_eq_false_2 by (intros ?; done).

Ltac read_value :=
  rewrite Next_app by done;
  rewrite bool_decide_eq_false_2 by (intros ?; done);
  rewrite valueLen_PutUint16 by done;
  rewrite Next_app by (by rewrite length_bytes_of);
  rewrite string_of_bytes_of, bool_decide_eq_false_2 by (intros ?; done).

Lemma decodeKeyValue_encoded m k v rest :
  len k <= 255 -> len v <= 65535 ->
  decodeKeyValue m
    (uint8 (len k) :: bytes_of k ++ PutUint16 (uint16 (len v))
       ++ bytes_of v ++ rest)
  = (Ok (len k + len v + 3), (addItem m k (IString v)).1).
Proof.
  intros Hk Hv. unfold decodeKeyValue.
  read_key.
  read_value.
  by rewrite addItem_supported.
Qed.

(** What [decodeList] has accumulated after appending [l] to [acc]. *)
Lemma listLoop_encoded l : ∀ fuel acc count b buf rest,
  Forall (fun item => len item <= 65535) l ->
  b :: buf = (l ≫= encodeItem) ++ msgListEnd :: rest ->
  (length l < fuel)%nat ->
  listLoop fuel buf b acc count
  = Some (Ok (match l with [] => acc | _ => Some (items acc ++ l) end,
              count + sumZ ((fun item => 3 + len item) <$> l))).
Proof.
  induction l as [|item l IH]; intros fuel acc count b buf rest Hl Hb Hf.
  - cbn in Hb. injection Hb as -> ->. destruct fuel; [cbn in Hf; lia|].
    cbn. by rewrite Z.add_0_r.
  - destruct fuel as [|fuel]; [cbn in Hf; lia|].
    apply Forall_cons in Hl as [Hitem Hl].
    assert (b = msgListItem
            ∧ buf = PutUint16 (uint16 (len item)) ++ bytes_of item
                      ++ (l ≫= encodeItem) ++ msgListEnd :: rest) as [-> ->].
    { rewrite bind_cons in Hb. unfold encodeItem at 1 in Hb.
      rewrite <- !app_assoc in Hb. by injection Hb. }
    cbn [listLoop].
    rewrite bool_decide_eq_false_2 by done.
    rewrite bool_decide_eq_false_2 by (intros ?; done).
    read_value.
    destruct ((l ≫= encodeItem) ++ msgListEnd :: rest) as [|b' buf'] eqn:Hrest.
    { by destruct (l ≫= encodeItem). }
    erewrite IH; [|done|done|cbn in Hf; lia].
    rewrite fmap_cons. cbn [sumZ foldr]. unfold append.
    f_equal. f_equal. f_equal.
    + destruct l as [|item' l]; [done|]. f_equal.
      change ((items acc ++ [item]) ++ item' :: l
              = items acc ++ item :: item' :: l).
      by rewrite <- app_assoc.
    + fold (sumZ ((fun item => 3 + len item) <$> l)). lia.
Qed.

Lemma length_encodeItems_ge l : (length l <= length (l ≫= encodeItem))%nat.
Proof.
  induction l as [|item l IH]; [done|].
  rewrite bind_cons, length_app. cbn. lia.
Qed.

Lemma decodeList_encoded m k l rest :
  len k <= 255 ->
  Forall (fun item => len item <= 65535) (items l) ->
  decodeList m
    (uint8 (len k) :: bytes_of k ++ (items l ≫= encodeItem)
       ++ msgListEnd :: rest)
  = (Ok (len k + 2 + sumZ ((fun item => 3 + len item) <$> items l)),
     (addItem m k (canon (IStrings l))).1).
Proof.
  intros Hk Hl. unfold decodeList.
  read_key.
  destruct ((items l ≫= encodeItem) ++ msgListEnd :: rest)
    as [|b buf] eqn:Hb.
  { by destruct (items l ≫= encodeItem). }
  erewrite listLoop_encoded; [|done|symmetry; exact Hb|].
  2:{ apply (f_equal length) in Hb. rewrite length_app in Hb. cbn in Hb.
      pose proof (length_encodeItems_ge (items l)). lia. }
  cbn [default]. rewrite !addItem_supported by done. cbn [canon fst].
  by destruct (items l).
Qed.

Lemma tree_IStrings p q l :
  tree p q (IStrings l) = true -> Forall (fun item => q item = true) (items l).
Proof. cbn. rewrite forallb_forall, Forall_forall. by setoid_rewrite list_elem_of_In. Qed.

(** The switch of [decodeSection]'s loop on the encoding of one element. *)
Lemma sectionSwitch_encoded s k v e fuel acc rest :
  (∀ j c, data s !! j = Some (IMessage (Some c)) -> section_round_trip c) ->
  data s !! k = Some v ->
  key_ok k = true ->
  tree key_ok value_ok v = true ->
  encodeValue v k = Ok e ->
  (length e + length rest <= fuel)%nat ->
  ∃ t tail,
    e = t :: tail ∧ t ≠ msgSectionEnd
    ∧ sectionSwitch (decodeSection_ fuel) acc (tail ++ rest) t
      = Some (Ok (Z.of_nat (length tail)), (addItem acc k (canon v)).1).
Proof.
  intros Hsub Hk [Hk1 Hk255]%bool_decide_eq_true Hv He Hf.
  destruct v as [sv|l| |[c|]| |]; try discriminate.
  - apply bool_decide_eq_true in Hv. injection He as <-.
    exists msgKeyValue, (uint8 (len k) :: bytes_of k
                           ++ PutUint16 (uint16 (len sv)) ++ bytes_of sv).
    split; [reflexivity|]. split; [done|].
    unfold sectionSwitch. rewrite bool_decide_eq_true_2 by done.
    cbn [app]. rewrite <- !app_assoc.
    rewrite decodeKeyValue_encoded by done. do 3 f_equal.
    cbn [length]. rewrite !length_app, length_PutUint16.
    pose proof (length_bytes_of k). pose proof (length_bytes_of sv). lia.
  - apply tree_IStrings in Hv. injection He as <-.
    exists msgListStart, (uint8 (len k) :: bytes_of k
                            ++ (items l ≫= encodeItem) ++ [msgListEnd]).
    split; [reflexivity|]. split; [done|].
    unfold sectionSwitch. rewrite bool_decide_eq_false_2 by done.
    rewrite bool_decide_eq_true_2 by done.
    cbn [app]. rewrite <- !app_assoc. cbn [app].
    rewrite decodeList_encoded.
    2: done.
    2:{ eapply Forall_impl; [exact Hv|]. intros item Hi.
        by apply bool_decide_eq_true in Hi. }
    do 3 f_equal. cbn [length]. rewrite !length_app. cbn [length].
    pose proof (length_bytes_of k).
    pose proof (length_encodeItems (items l)). lia.
  - rewrite encodeValue_section in He. cbn in He.
    destruct (encode c) as [body| |] eqn:Hbody; try discriminate.
    injection He as <-.
    exists msgSectionStart, (uint8 (len k) :: bytes_of k
                               ++ body ++ [msgSectionEnd]).
    split; [reflexivity|]. split; [done|].
    unfold sectionSwitch. rewrite !bool_decide_eq_false_2 by done.
    rewrite bool_decide_eq_true_2 by done.
    cbn [app]. rewrite <- !app_assoc. cbn [app].
    rewrite (Hsub k c Hk body) by
      (try done; cbn [length] in Hf; rewrite !length_app in Hf;
       cbn [length] in Hf; lia).
    do 3 f_equal. cbn [length]. rewrite !length_app. cbn [length].
    pose proof (length_bytes_of k). lia.
Qed.

Lemma encode_length_ge s ks body :
  encodeElements (encodeElement s) ks = Ok body ->
  (length ks <= length body)%nat.
Proof.
  revert body. induction ks as [|k ks IH]; intros body Henc; cbn; [lia|].
  cbn in Henc. destruct (encodeElement s k) as [e| |] eqn:He; try discriminate.
  destruct (encodeElements _ ks) as [body'| |]; try discriminate.
  injection Henc as <-. specialize (IH body' eq_refl).
  unfold encodeElement in He. destruct (data s !! k) as [v|]; [|done].
  apply encodeValue_frame in He as (t & rest & ->).
  rewrite length_app. cbn. lia.
Qed.

(** The loop of [decodeSection] on the encoding of the elements under the
    keys [ks], followed by any byte [b'] and bytes [buf']. *)
Lemma sectionLoop_encoded s :
  (∀ j c, data s !! j = Some (IMessage (Some c)) -> section_round_trip c) ->
  ∀ ks body fuel acc b buf count b' buf',
    (∀ k, k ∈ ks ->
       key_ok k = true
       ∧ ∃ v, data s !! k = Some v ∧ tree key_ok value_ok v = true) ->
    encodeElements (encodeElement s) ks = Ok body ->
    b :: buf = body ++ b' :: buf' ->
    (length buf + 2 <= fuel)%nat ->
    sectionLoop fuel acc buf b count
    = sectionLoop (fuel - length ks) (addAll s acc ks) buf' b'
        (count + Z.of_nat (length body)).
Proof.
  intros Hsub ks.
  induction ks as [|k ks IH];
    intros body fuel acc b buf count b' buf' Hks Henc Hb Hf.
  - cbn in Henc. injection Henc as <-. cbn in Hb. injection Hb as -> ->.
    cbn. by rewrite Nat.sub_0_r, Z.add_0_r.
  - cbn [encodeElements] in Henc.
    destruct (encodeElement s k) as [e| |] eqn:He; try discriminate.
    destruct (encodeElements _ ks) as [body'| |] eqn:Hks'; try discriminate.
    injection Henc as <-.
    destruct (Hks k) as [Hkok (v & Hv & Htv)]; [left|].
    unfold encodeElement in He. rewrite Hv in He.
    destruct fuel as [|f]; [lia|].
    assert (length e + length (body' ++ b' :: buf') <= f)%nat as Hfe.
    { apply (f_equal length) in Hb. rewrite !length_app in Hb.
      cbn [length] in Hb. rewrite length_app. cbn [length]. lia. }
    destruct (sectionSwitch_encoded s k v e f acc (body' ++ b' :: buf')
                Hsub Hv Hkok Htv He Hfe) as (t & tail & -> & Ht & Hsw).
    rewrite <- app_assoc in Hb. cbn [app] in Hb. injection Hb as -> ->.
    cbn [sectionLoop]. rewrite bool_decide_eq_false_2 by done. rewrite Hsw.
    rewrite Next_app by done. cbn [snd].
    destruct (body' ++ b' :: buf') as [|b2 buf2] eqn:Hrest.
    { by destruct body'. }
    erewrite IH; [|intros j Hj; apply Hks; by right|reflexivity
                  |symmetry; exact Hrest|].
    2:{ rewrite length_app in Hf. cbn [length] in Hf. lia. }
    cbn [addAll foldl length]. rewrite Hv. f_equal.
    rewrite length_app. cbn [length]. lia.
Qed.

Lemma tree_supported p q v : tree p q v = true -> supported v = true.
Proof. by destruct v as [?|?| |[?|]| |]. Qed.

Lemma canon_supported v : supported (canon v) = supported v.
Proof. by destruct v as [?|?| |[?|]| |]. Qed.

Lemma addAll_lookup s ks : ∀ acc,
  NoDup ks ->
  (∀ k, k ∈ ks -> ∃ v, data s !! k = Some v ∧ supported v = true) ->
  (∀ k, k ∈ ks -> data acc !! k = None) ->
  keys (addAll s acc ks) = keys acc ++ ks
  ∧ ∀ j, data (addAll s acc ks) !! j
         = if decide (j ∈ ks) then canon <$> data s !! j else data acc !! j.
Proof.
  induction ks as [|k ks IH]; intros acc Hnd Hks Hacc.
  - cbn. split; [by rewrite app_nil_r|]. intros j.
    by rewrite decide_False by (by intros ?%elem_of_nil).
  - apply NoDup_cons in Hnd as [Hk Hnd].
    destruct (Hks k) as (v & Hv & Hsup); [left|].
    cbn [addAll foldl]. rewrite Hv.
    rewrite addItem_supported by (by rewrite canon_supported).
    rewrite bool_decide_eq_false_2
      by (rewrite Hacc by left; by intros [? ?]).
    cbn [fst]. fold (addAll s (mkMessage (keys acc ++ [k])
                                 (<[k:=canon v]> (data acc))) ks).
    destruct (IH (mkMessage (keys acc ++ [k]) (<[k:=canon v]> (data acc))))
      as [Hkeys Hdata]; [done| | |].
    { intros j Hj. apply Hks. by right. }
    { intros j Hj. cbn. rewrite lookup_insert_ne by (intros ->; done).
      apply Hacc. by right. }
    split.
    + rewrite Hkeys. cbn. by rewrite <- app_assoc.
    + intros j. rewrite Hdata. cbn.
      destruct (decide (j = k)) as [->|Hne].
      * rewrite decide_False by done. rewrite decide_True by left.
        by rewrite lookup_insert_eq, Hv.
      * rewrite lookup_insert_ne by done.
        destruct (decide (j ∈ ks)) as [Hin|Hnin].
        -- by rewrite decide_True by (by right).
        -- rewrite decide_False; [done|].
           intros [?|?]%elem_of_cons; done.
Qed.

Lemma addAll_canonical p q s :
  tree p q (IMessage (Some s)) = true ->
  addAll s NewMessage (keys s) = canonical s.
Proof.
  intros [[Hnd Hdom] Hall]%tree_message.
  destruct (addAll_lookup s (keys s) NewMessage) as [Hkeys Hdata]; [done| |done|].
  { intros k [v Hv]%Hdom. exists v. split; [done|].
    eapply tree_supported, Hall, Hv. }
  destruct (addAll s NewMessage (keys s)) as [ks d]. cbn in Hkeys, Hdata.
  unfold canonical. f_equal; [done|].
  apply map_eq. intros j. rewrite Hdata, lookup_fmap.
  destruct (decide (j ∈ keys s)) as [Hin|Hnin]; [done|].
  rewrite lookup_empty. destruct (data s !! j) eqn:Hj; [|done].
  exfalso. apply Hnin, Hdom. eauto.
Qed.

Lemma section_round_trip_all s : section_round_trip s.
Proof.
  induction s as [s IH] using Message_ind_depth.
  intros body fuel m k rest Hwf Henc Hk Hf.
  destruct fuel as [|fuel]; [lia|]. cbn [decodeSection_].
  read_key.
  destruct (body ++ msgSectionEnd :: rest) as [|b buf] eqn:Hb.
  { by destruct body. }
  pose proof Hwf as [_ Hall]%tree_message.
  pose proof Hwf as [[_ Hdom] _]%tree_message.
  erewrite (sectionLoop_encoded s IH (keys s) body fuel NewMessage b buf
              _ msgSectionEnd rest); [| |exact Henc|symmetry; exact Hb|].
  2:{ intros j [v Hv]%Hdom. destruct (Hall j v Hv). eauto. }
  2:{ apply (f_equal length) in Hb. rewrite length_app in Hb.
      cbn [length] in Hb. lia. }
  pose proof (encode_length_ge s (keys s) body Henc) as Hlen.
  destruct (fuel - length (keys s))%nat as [|f'] eqn:Hf'; [lia|].
  cbn [sectionLoop]. rewrite bool_decide_eq_true_2 by done.
  rewrite (addAll_canonical _ _ _ Hwf).
  by rewrite addItem_supported.
Qed.

Lemma messageSwitch_sectionSwitch acc buf t n acc' :
  sectionSwitch (decodeSection_ (S (length buf))) acc buf t
  = Some (Ok n, acc') ->
  messageSwitch acc buf t = (Ok (Next n buf).2, acc').
Proof.
  unfold sectionSwitch, messageSwitch, decodeSection.
  repeat case_bool_decide; try discriminate.
  - by intros [= ->].
  - by intros [= ->].
  - by intros ->.
Qed.

(** The loop of [decode] on the encoding of the elements under the keys
    [ks], followed by the bytes [rest]. *)
Lemma decodeLoop_encoded s :
  ∀ ks body fuel acc b buf rest,
    (∀ k, k ∈ ks ->
       key_ok k = true
       ∧ ∃ v, data s !! k = Some v ∧ tree key_ok value_ok v = true) ->
    encodeElements (encodeElement s) ks = Ok body ->
    b :: buf = body ++ rest ->
    decodeLoop fuel acc buf b
    = match rest with
      | [] => decodeLoop (fuel - length ks) (addAll s acc ks) [] x00
      | b' :: buf' => decodeLoop (fuel - length ks) (addAll s acc ks) buf' b'
      end.
Proof.
  intros ks.
  induction ks as [|k ks IH]; intros body fuel acc b buf rest Hks Henc Hb.
  - cbn in Henc. injection Henc as <-. cbn in Hb. subst rest.
    cbn. by rewrite Nat.sub_0_r.
  - cbn [encodeElements] in Henc.
    destruct (encodeElement s k) as [e| |] eqn:He; try discriminate.
    destruct (encodeElements _ ks) as [body'| |] eqn:Hks'; try discriminate.
    injection Henc as <-.
    destruct (Hks k) as [Hkok (v & Hv & Htv)]; [left|].
    unfold encodeElement in He. rewrite Hv in He.
    destruct fuel as [|f]; [by destruct rest|].
    destruct (sectionSwitch_encoded s k v e
                (length e + length (body' ++ rest)) acc (body' ++ rest)
                (fun j c _ => section_round_trip_all c) Hv Hkok Htv He)
      as (t & tail & -> & Ht & Hsw); [lia|].
    destruct (encodeValue_frame _ _ _ He) as (t' & tail' & Hframe).
    rewrite <- app_assoc in Hb. cbn [app] in Hb. injection Hb as -> ->.
    assert (length (tail ++ body' ++ rest) ≠ 0%nat) as Hne.
    { injection Hframe as _ ->. done. }
    cbn [decodeLoop]. rewrite bool_decide_eq_false_2 by done.
    cbn [length Nat.add] in Hsw. rewrite <- length_app in Hsw.
    apply messageSwitch_sectionSwitch in Hsw. rewrite Hsw.
    rewrite Next_app by done. cbn [snd length Nat.sub addAll foldl].
    rewrite Hv.
    destruct (body' ++ rest) as [|b2 buf2] eqn:Hrest.
    + apply app_eq_nil in Hrest as [-> ->].
      apply encode_length_ge in Hks'.
      destruct ks; [cbn; by rewrite Nat.sub_0_r|cbn in Hks'; lia].
    + erewrite IH; [done| |reflexivity|symmetry; exact Hrest].
      intros j Hj. apply Hks. by right.
Qed.

Lemma canon_idemp v : canon (canon v) = canon v.
Proof.
  remember (depth v) as n eqn:Hn. revert v Hn.
  induction (lt_wf n) as [n _ IH]. intros v ->.
  destruct v as [?|l| |[m|]| |]; try done.
  - cbn. by destruct (items l).
  - cbn [canon keys data]. do 3 f_equal.
    apply map_eq. intros k. rewrite !lookup_fmap.
    destruct (data m !! k) as [v|] eqn:Hk; [|done]. cbn. f_equal.
    eapply IH; [|done]. by apply depth_lookup in Hk.
Qed.

Lemma canonical_idemp m : canonical (canonical m) = canonical m.
Proof.
  pose proof (canon_idemp (IMessage (Some m))) as H.
  cbn [canon keys data] in H. unfold canonical. cbn [keys data]. congruence.
Qed.

(** C1.  Round trip: the bytes [encode] returns for a well-formed message,
    decoded into a fresh message, give a message that is structurally equal
    to the original, with the same keys in the same order at every level
    (it is the original with every list read as the sequence of its
    items). *)
Theorem decode_encode (m : Message) :
  wellFormed m = true ->
  ∃ bs, encode m = Ok bs
        ∧ decode NewMessage bs = (Ok tt, canonical m)
        ∧ structurally_equal (canonical m) m
        ∧ Keys (canonical m) = Keys m.
Proof.
  intros Hwf.
  destruct (encode_tree_ok _ _ m Hwf) as [bs Hbs]. exists bs.
  split; [done|]. split; [|split; [apply canonical_idemp|done]].
  pose proof Hwf as [[_ Hdom] Hall]%tree_message.
  pose proof (encode_length_ge m (keys m) bs Hbs) as Hlen.
  unfold decode. destruct bs as [|b buf].
  - destruct (keys m) as [|k ks] eqn:Hks; [|cbn in Hlen; lia].
    cbn. rewrite <- (addAll_canonical _ _ _ Hwf). by rewrite Hks.
  - erewrite (decodeLoop_encoded m (keys m) (b :: buf) _ NewMessage b buf []);
      [| |exact Hbs|by rewrite app_nil_r].
    2:{ intros j [v Hv]%Hdom. destruct (Hall j v Hv). eauto. }
    destruct (S (length (b :: buf)) - length (keys m))%nat eqn:Hf; [lia|].
    cbn. by rewrite (addAll_canonical _ _ _ Hwf).
Qed.

Lemma decode_encode_witness :
  let m := (Set_ (Set_ (Set_ NewMessage "version" (IString "5.9")).1
                    "pools" (IStrings (Some ["a"; "b"]))).1
              "child" (IMessage (Some (Set_ NewMessage "mode"
                                         (IString "tunnel")).1))).1 in
  ∃ bs, encode m = Ok bs
        ∧ decode NewMessage bs = (Ok tt, canonical m)
        ∧ structurally_equal (canonical m) m
        ∧ Keys (canonical m) = Keys m.
Proof.
  intros m. apply (decode_encode m). vm_compute. reflexivity.
Defined.

(** ** The fuel set from the length of the buffer is never exhausted *)

Lemma length_Next_2 n (buf : list byte) :
  (length (Next n buf).2 <= length buf)%nat.
Proof. unfold Next. cbn. rewrite length_drop. lia. Qed.

Lemma listLoop_total fuel : ∀ buf b acc count,
  (length buf < fuel)%nat -> is_Some (listLoop fuel buf b acc count).
Proof.
  induction fuel as [|fuel IH]; intros buf b acc count Hf; [lia|].
  cbn [listLoop]. repeat case_bool_decide; try done.
  pose proof (length_Next_2 2 buf) as Hd1.
  destruct (Next 2 buf) as [v buf1] eqn:Hn1. cbn [snd] in Hd1.
  case_bool_decide; [done|].
  pose proof (length_Next_2 (Uint16 v) buf1) as Hd2.
  destruct (Next (Uint16 v) buf1) as [value buf2] eqn:Hn2. cbn [snd] in Hd2.
  case_bool_decide; [done|].
  destruct buf2 as [|b' buf3]; [done|]. apply IH. cbn [length] in Hd2. lia.
Qed.

Lemma decodeSection_total fuel :
  (∀ m data, (length data < fuel)%nat -> is_Some (decodeSection_ fuel m data))
  ∧ (∀ section buf b count,
       (length buf + 2 <= fuel)%nat ->
       is_Some (sectionLoop fuel section buf b count)).
Proof.
  induction fuel as [|fuel [IHd IHl]]; [split; intros; lia|]. split.
  - intros m data Hf. cbn [decodeSection_].
    destruct data as [|n buf]; [done|].
    pose proof (length_Next_2 (int_of_byte n) buf) as Hd1.
    destruct (Next (int_of_byte n) buf) as [key buf1] eqn:Hn1. cbn [snd] in Hd1.
    case_bool_decide; [done|].
    destruct buf1 as [|b buf2]; [done|].
    destruct (IHl NewMessage buf2 b (int_of_byte n + 2)) as [[o sec] ->].
    { cbn [length] in Hf, Hd1. lia. }
    destruct o; [|done..]. by destruct (addItem _ _ _) as [? [?|]].
  - intros section buf b count Hf. cbn [sectionLoop].
    case_bool_decide; [done|].
    assert (is_Some (sectionSwitch (decodeSection_ fuel) section buf b))
      as [[o sec] ->].
    { unfold sectionSwitch. repeat case_bool_decide; try done.
      apply IHd. lia. }
    destruct o as [n| |]; [|done..].
    pose proof (length_Next_2 n buf) as Hd1.
    destruct (Next n buf).2 as [|b' buf']; [done|].
    apply IHl. cbn [length] in Hd1. lia.
Qed.

Lemma decodeList_listLoop buf b acc count :
  ∃ r, listLoop (S (length buf)) buf b acc count = Some r.
Proof. apply listLoop_total. lia. Qed.

Lemma decodeSection_decodeSection_ m data :
  decodeSection_ (S (length data)) m data = Some (decodeSection m data).
Proof.
  unfold decodeSection.
  destruct (proj1 (decodeSection_total (S (length data))) m data) as [r ->];
    [lia|done].
Qed.

Lemma length_messageSwitch m buf b buf' m' :
  messageSwitch m buf b = (Ok buf', m') -> (length buf' <= length buf)%nat.
Proof.
  unfold messageSwitch, advance. intros H.
  repeat case_bool_decide; repeat case_match; simplify_eq;
    try apply length_Next_2; done.
Qed.

Lemma decodeLoop_total fuel : ∀ m buf b,
  (length buf < fuel)%nat -> is_Some (decodeLoop fuel m buf b).
Proof.
  induction fuel as [|fuel IH]; intros m buf b Hf; [lia|].
  cbn [decodeLoop]. case_bool_decide as Hlen; [done|].
  destruct (messageSwitch m buf b) as [[buf'| |] m'] eqn:Hsw; [|done..].
  apply length_messageSwitch in Hsw.
  destruct buf' as [|b' buf'']; apply IH; cbn [length] in *; lia.
Qed.

(** [decode] always returns: its result is the one its loop reaches. *)
Lemma decode_total m data :
  ∃ r, decode m data = r
       ∧ decodeLoop (S (length data)) m (tail data) (default x00 (head data))
         = Some r.
Proof.
  unfold decode. destruct data as [|b buf]; cbn [tail head default].
  - by eexists.
  - destruct (decodeLoop_total (S (length (b :: buf))) m buf b) as [r Hr].
    { cbn. lia. }
    exists r. by rewrite Hr.
Qed.

(** ** Truncated input *)

Lemma key_short n (rest : list byte) :
  Z.of_nat (length rest) < int_of_byte n ->
  len (string_of (Next (int_of_byte n) rest).1) ≠ int_of_byte n.
Proof. intros H. rewrite len_string_of. by apply Next_short. Qed.

Lemma decodeKeyValue_BadKey m n rest :
  Z.of_nat (length rest) < int_of_byte n ->
  decodeKeyValue m (n :: rest) = (Error errBadKey, m).
Proof.
  intros H%key_short. unfold decodeKeyValue.
  destruct (Next (int_of_byte n) rest) as [key buf].
  by rewrite bool_decide_eq_true_2.
Qed.

Lemma decodeList_BadKey m n rest :
  Z.of_nat (length rest) < int_of_byte n ->
  decodeList m (n :: rest) = (Error errBadKey, m).
Proof.
  intros H%key_short. unfold decodeList.
  destruct (Next (int_of_byte n) rest) as [key buf].
  by rewrite bool_decide_eq_true_2.
Qed.

Lemma decodeSection_BadKey m n rest :
  Z.of_nat (length rest) < int_of_byte n ->
  decodeSection m (n :: rest) = (Error errBadKey, m).
Proof.
  intros H%key_short. unfold decodeSection. cbn [decodeSection_].
  destruct (Next (int_of_byte n) rest) as [key buf].
  by rewrite bool_decide_eq_true_2.
Qed.

Lemma decodeKeyValue_BadValue m k hi lo rest :
  len k <= 255 ->
  Z.of_nat (length rest) < Uint16 [hi; lo] ->
  decodeKeyValue m (uint8 (len k) :: bytes_of k ++ hi :: lo :: rest)
  = (Error errBadValue, m).
Proof.
  intros Hk Hv. unfold decodeKeyValue.
  read_key.
  change (hi :: lo :: rest) with ([hi; lo] ++ rest).
  rewrite Next_app by done.
  rewrite bool_decide_eq_false_2 by (intros ?; done).
  pose proof (Next_short _ _ Hv) as Hshort.
  destruct (Next (Uint16 [hi; lo]) rest) as [value buf].
  by rewrite bool_decide_eq_true_2 by (by rewrite len_string_of).
Qed.

(** The loop of [decodeList] on encoded items followed by any byte. *)
Lemma listLoop_items l : ∀ fuel acc count b buf b' buf',
  Forall (fun item => len item <= 65535) l ->
  b :: buf = (l ≫= encodeItem) ++ b' :: buf' ->
  listLoop fuel buf b acc count
  = listLoop (fuel - length l) buf' b'
      (match l with [] => acc | _ => Some (items acc ++ l) end)
      (count + sumZ ((fun item => 3 + len item) <$> l)).
Proof.
  induction l as [|item l IH]; intros fuel acc count b buf b' buf' Hl Hb.
  - cbn in Hb. injection Hb as -> ->. cbn.
    by rewrite Nat.sub_0_r, Z.add_0_r.
  - destruct fuel as [|fuel]; [done|].
    apply Forall_cons in Hl as [Hitem Hl].
    assert (b = msgListItem
            ∧ buf = PutUint16 (uint16 (len item)) ++ bytes_of item
                      ++ (l ≫= encodeItem) ++ b' :: buf') as [-> ->].
    { rewrite bind_cons in Hb. unfold encodeItem at 1 in Hb.
      rewrite <- !app_assoc in Hb. by injection Hb. }
    cbn [listLoop length Nat.sub].
    rewrite bool_decide_eq_false_2 by done.
    rewrite bool_decide_eq_false_2 by (intros ?; done).
    read_value.
    destruct ((l ≫= encodeItem) ++ b' :: buf') as [|b2 buf2] eqn:Hrest.
    { by destruct (l ≫= encodeItem). }
    erewrite IH; [|done|done].
    rewrite fmap_cons. cbn [sumZ foldr]. unfold append. f_equal.
    + destruct l as [|item' l]; [done|]. f_equal.
      change ((items acc ++ [item]) ++ item' :: l
              = items acc ++ item :: item' :: l).
      by rewrite <- app_assoc.
    + fold (sumZ ((fun item => 3 + len item) <$> l)). lia.
Qed.

(** The loop of [decodeList] on encoded items that end the buffer. *)
Lemma listLoop_eof l : ∀ fuel acc count b buf,
  Forall (fun item => len item <= 65535) l ->
  b :: buf = l ≫= encodeItem ->
  (length l <= fuel)%nat ->
  listLoop fuel buf b acc count = Some (Error (errDecodingOf io_EOF)).
Proof.
  induction l as [|item l IH]; intros fuel acc count b buf Hl Hb Hf; [done|].
  destruct fuel as [|fuel]; [cbn in Hf; lia|].
  apply Forall_cons in Hl as [Hitem Hl].
  assert (b = msgListItem
          ∧ buf = PutUint16 (uint16 (len item)) ++ bytes_of item
                    ++ (l ≫= encodeItem)) as [-> ->].
  { rewrite bind_cons in Hb. unfold encodeItem at 1 in Hb.
    rewrite <- !app_assoc in Hb. by injection Hb. }
  cbn [listLoop].
  rewrite bool_decide_eq_false_2 by done.
  rewrite bool_decide_eq_false_2 by (intros ?; done).
  read_value.
  destruct (l ≫= encodeItem) as [|b2 buf2] eqn:Hrest; [done|].
  eapply IH; [done|reflexivity|cbn in Hf; lia].
Qed.

Lemma decodeList_eof m k l :
  len k <= 255 ->
  Forall (fun item => len item <= 65535) l ->
  decodeList m (uint8 (len k) :: bytes_of k ++ (l ≫= encodeItem))
  = (Error (errDecodingOf io_EOF), m).
Proof.
  intros Hk Hl. unfold decodeList.
  read_key.
  destruct (l ≫= encodeItem) as [|b buf] eqn:Hb; [done|].
  erewrite listLoop_eof; [done|done|by rewrite Hb|].
  pose proof (length_encodeItems_ge l) as Hge. rewrite Hb in Hge.
  cbn [length] in Hge. lia.
Qed.

Lemma decodeList_BadValue m k l hi lo rest :
  len k <= 255 ->
  Forall (fun item => len item <= 65535) l ->
  Z.of_nat (length rest) < Uint16 [hi; lo] ->
  decodeList m
    (uint8 (len k) :: bytes_of k ++ (l ≫= encodeItem)
       ++ msgListItem :: hi :: lo :: rest)
  = (Error errBadValue, m).
Proof.
  intros Hk Hl Hv. unfold decodeList.
  read_key.
  destruct ((l ≫= encodeItem) ++ msgListItem :: hi :: lo :: rest)
    as [|b buf] eqn:Hb.
  { by destruct (l ≫= encodeItem). }
  erewrite listLoop_items; [|done|symmetry; exact Hb].
  assert (length l < S (length buf))%nat as Hf.
  { apply (f_equal length) in Hb. rewrite length_app in Hb. cbn in Hb.
    pose proof (length_encodeItems_ge l). lia. }
  destruct (S (length buf) - length l)%nat as [|f] eqn:Hf'; [lia|].
  cbn [listLoop].
  rewrite bool_decide_eq_false_2 by done.
  rewrite bool_decide_eq_false_2 by (intros ?; done).
  change (hi :: lo :: rest) with ([hi; lo] ++ rest).
  rewrite Next_app by done.
  rewrite bool_decide_eq_false_2 by (intros ?; done).
  pose proof (Next_short _ _ Hv) as Hshort.
  destruct (Next (Uint16 [hi; lo]) rest) as [value buf'].
  by rewrite bool_decide_eq_true_2 by (by rewrite len_string_of).
Qed.

(** The loop of [decodeSection] on encoded elements that end the buffer. *)
Lemma sectionLoop_eof s :
  ∀ ks body fuel acc b buf count,
    (∀ k, k ∈ ks ->
       key_ok k = true
       ∧ ∃ v, data s !! k = Some v ∧ tree key_ok value_ok v = true) ->
    encodeElements (encodeElement s) ks = Ok body ->
    b :: buf = body ->
    (length buf + 2 <= fuel)%nat ->
    ∃ section,
      sectionLoop fuel acc buf b count
      = Some (Error (errDecodingOf io_EOF), section).
Proof.
  intros ks.
  induction ks as [|k ks IH]; intros body fuel acc b buf count Hks Henc Hb Hf.
  - cbn in Henc. injection Henc as <-. done.
  - cbn [encodeElements] in Henc.
    destruct (encodeElement s k) as [e| |] eqn:He; try discriminate.
    destruct (encodeElements _ ks) as [body'| |] eqn:Hks'; try discriminate.
    injection Henc as <-.
    destruct (Hks k) as [Hkok (v & Hv & Htv)]; [left|].
    unfold encodeElement in He. rewrite Hv in He.
    destruct fuel as [|f]; [lia|].
    assert (length e + length body' <= f)%nat as Hfe.
    { apply (f_equal length) in Hb. rewrite !length_app in Hb.
      cbn [length] in Hb. lia. }
    destruct (sectionSwitch_encoded s k v e f acc body'
                (fun j c _ => section_round_trip_all c) Hv Hkok Htv He Hfe)
      as (t & tail & -> & Ht & Hsw).
    cbn [app] in Hb. injection Hb as -> ->.
    cbn [sectionLoop]. rewrite bool_decide_eq_false_2 by done. rewrite Hsw.
    rewrite Next_app by done. cbn [snd].
    destruct body' as [|b2 buf2]; [by eexists|].
    eapply IH; [|reflexivity|reflexivity|].
    + intros j Hj. apply Hks. by right.
    + rewrite length_app in Hf. cbn [length] in Hf. lia.
Qed.

Lemma decodeSection_eof m k s body :
  len k <= 255 ->
  wellFormed s = true ->
  encode s = Ok body ->
  decodeSection m (uint8 (len k) :: bytes_of k ++ body)
  = (Error (errDecodingOf io_EOF), m).
Proof.
  intros Hk Hwf Henc. unfold decodeSection. cbn [decodeSection_].
  read_key.
  destruct body as [|b buf] eqn:Hbody; [done|].
  pose proof Hwf as [[_ Hdom] Hall]%tree_message.
  destruct (sectionLoop_eof s (keys s) (b :: buf)
              (length (uint8 (len k) :: bytes_of k ++ b :: buf))
              NewMessage b buf (len k + 2)) as [section ->];
    [|exact Henc|done| |done].
  - intros j [v Hv]%Hdom. destruct (Hall j v Hv). eauto.
  - cbn [length]. rewrite length_app. cbn [length]. lia.
Qed.

(** An element decoder that fails after the encoding of a well-formed
    message makes [decode] fail with the same error. *)
Lemma decode_after_prefix m0 pre t tail e :
  wellFormed m0 = true ->
  encode m0 = Ok pre ->
  tail ≠ [] ->
  (∀ acc, (messageSwitch acc tail t).1 = Error e) ->
  (decode NewMessage (pre ++ t :: tail)).1 = Error e.
Proof.
  intros Hwf Henc Htail Hsw. unfold decode.
  destruct (pre ++ t :: tail) as [|b buf] eqn:Hb.
  { by destruct pre. }
  pose proof Hwf as [[_ Hdom] Hall]%tree_message.
  erewrite (decodeLoop_encoded m0 (keys m0) pre _ NewMessage b buf
              (t :: tail)); [| |exact Henc|by rewrite Hb].
  2:{ intros j [v Hv]%Hdom. destruct (Hall j v Hv). eauto. }
  pose proof (encode_length_ge m0 (keys m0) pre Henc) as Hlen.
  apply (f_equal length) in Hb. rewrite length_app in Hb.
  destruct (S (length (b :: buf)) - length (keys m0))%nat eqn:Hf; [lia|].
  cbn [decodeLoop].
  rewrite bool_decide_eq_false_2 by (by destruct tail).
  specialize (Hsw (addAll m0 NewMessage (keys m0))).
  destruct (messageSwitch _ tail t) as [[?| |] ?]; cbn in Hsw; try done.
  by injection Hsw as ->.
Qed.

Lemma messageSwitch_error acc tail t e :
  (t = msgKeyValue ∧ decodeKeyValue acc tail = (Error e, acc))
  ∨ (t = msgListStart ∧ decodeList acc tail = (Error e, acc))
  ∨ (t = msgSectionStart ∧ decodeSection acc tail = (Error e, acc)) ->
  (messageSwitch acc tail t).1 = Error e.
Proof.
  unfold messageSwitch.
  intros [[-> H]|[[-> H]|[-> H]]];
    repeat case_bool_decide; try done; by rewrite H.
Qed.

Lemma messageSwitch_other m buf b :
  b ≠ msgKeyValue -> b ≠ msgListStart -> b ≠ msgSectionStart ->
  messageSwitch m buf b = (Ok buf, m).
Proof.
  intros. unfold messageSwitch. by rewrite !bool_decide_eq_false_2.
Qed.

Lemma sectionSwitch_other dec section buf b :
  b ≠ msgKeyValue -> b ≠ msgListStart -> b ≠ msgSectionStart ->
  sectionSwitch dec section buf b = Some (Error errExpectedBeginning, section).
Proof.
  intros. unfold sectionSwitch. by rewrite !bool_decide_eq_false_2.
Qed.

(** ** Whole elements, at any depth *)

Lemma element_ind_nested (P : element -> Prop) :
  (∀ k v, P (EKeyValue k v)) ->
  (∀ k l, P (EList k l)) ->
  (∀ k es, Forall P es -> P (ESection k es)) ->
  ∀ e, P e.
Proof.
  intros Hkv Hl Hs. fix IH 1.
  intros [k v|k l|k es]; [apply Hkv|apply Hl|].
  apply Hs. induction es as [|e es IHes]; constructor; [apply IH|apply IHes].
Qed.

(** The frames are the bytes the encoders write. *)
Lemma frame_encodeKeyValue k v :
  encodeKeyValue k v = Ok (frame (EKeyValue k v)).
Proof. reflexivity. Qed.

Lemma frame_encodeList k l :
  encodeList k (Some l) = Ok (frame (EList k l)).
Proof. reflexivity. Qed.

Lemma frame_encodeSection k s es :
  encode s = Ok (es ≫= frame) ->
  encodeSection k (Some s) = Ok (frame (ESection k es)).
Proof. intros H. cbn [encodeSection]. by rewrite H. Qed.

Lemma length_frame_pos e : (0 < length (frame e))%nat.
Proof. destruct e; cbn; lia. Qed.

Lemma length_frames_ge es : (length es <= length (es ≫= frame))%nat.
Proof.
  induction es as [|e es IH]; [done|].
  rewrite bind_cons, length_app. pose proof (length_frame_pos e). cbn. lia.
Qed.

Lemma type_byte_cases (t : byte) :
  t ∈ [msgKeyValue; msgListStart; msgSectionStart] ->
  t = msgKeyValue ∨ t = msgListStart ∨ t = msgSectionStart.
Proof.
  rewrite !elem_of_cons. intros [->|[->|[->|[]%elem_of_nil]]]; eauto.
Qed.

Lemma type_byte_not_end (t : byte) :
  t ∈ [msgKeyValue; msgListStart; msgSectionStart] -> t ≠ msgSectionEnd.
Proof. intros [->|[->| ->]]%type_byte_cases; done. Qed.

(** Goals on the lengths of appended lists. *)
Ltac lengths :=
  repeat (cbn [length] in *; rewrite ?length_app in * );
  cbn [length] in *; lia.

(** The loop of [decodeSection] on the frames of whole elements, followed
    by any byte [b'] and bytes [buf']. *)
Lemma sectionLoop_frames es :
  Forall decodes es ->
  ∀ fuel acc b buf count b' buf',
    b :: buf = (es ≫= frame) ++ b' :: buf' ->
    (length buf + 2 <= fuel)%nat ->
    ∃ acc',
      sectionLoop fuel acc buf b count
      = sectionLoop (fuel - length es) acc' buf' b'
          (count + Z.of_nat (length (es ≫= frame))).
Proof.
  induction es as [|e es IH];
    intros Hes fuel acc b buf count b' buf' Hb Hf.
  - cbn in Hb. injection Hb as -> ->. exists acc.
    cbn. by rewrite Nat.sub_0_r, Z.add_0_r.
  - apply Forall_cons in Hes as [He Hes].
    rewrite bind_cons in Hb |- *. rewrite <- app_assoc in Hb.
    destruct fuel as [|f]; [lia|].
    destruct (He f acc ((es ≫= frame) ++ b' :: buf'))
      as (t & tail & acc1 & Hframe & Ht & Hsw).
    { apply (f_equal length) in Hb. rewrite !length_app in Hb.
      cbn [length] in Hb. rewrite length_app. cbn [length]. lia. }
    rewrite Hframe in Hb |- *. cbn [app] in Hb. injection Hb as -> ->.
    cbn [sectionLoop].
    rewrite bool_decide_eq_false_2 by (by apply type_byte_not_end).
    rewrite Hsw. rewrite Next_app by done. cbn [snd].
    destruct ((es ≫= frame) ++ b' :: buf') as [|b2 buf2] eqn:Hrest.
    { by destruct (es ≫= frame). }
    destruct (IH Hes f acc1 b2 buf2 (count + Z.of_nat (length tail) + 1)
                b' buf') as [acc' ->]; [by rewrite Hrest| |].
    { rewrite length_app in Hf. cbn [length] in Hf. lia. }
    exists acc'. cbn [length Nat.sub]. f_equal.
    rewrite length_app. cbn [length]. lia.
Qed.

Lemma bounded_decodes e : bounded e = true -> decodes e.
Proof.
  induction e as [k v|k l|k es IH] using element_ind_nested;
    cbn [bounded]; intros [Hk Hv]%andb_true_iff;
    apply bool_decide_eq_true in Hk; intros fuel acc rest Hf.
  - apply bool_decide_eq_true in Hv.
    exists msgKeyValue, (uint8 (len k) :: bytes_of k
                           ++ PutUint16 (uint16 (len v)) ++ bytes_of v),
      (addItem acc k (IString v)).1.
    split; [reflexivity|]. split; [by left|].
    unfold sectionSwitch. rewrite bool_decide_eq_true_2 by done.
    cbn [app]. rewrite <- !app_assoc.
    rewrite decodeKeyValue_encoded by done. do 3 f_equal.
    cbn [length]. rewrite !length_app, length_PutUint16.
    pose proof (length_bytes_of k). pose proof (length_bytes_of v). lia.
  - exists msgListStart, (uint8 (len k) :: bytes_of k
                            ++ (l ≫= encodeItem) ++ [msgListEnd]),
      (addItem acc k (canon (IStrings (Some l)))).1.
    split; [reflexivity|]. split; [by right; left|].
    unfold sectionSwitch. rewrite bool_decide_eq_false_2 by done.
    rewrite bool_decide_eq_true_2 by done.
    cbn [app]. rewrite <- !app_assoc. cbn [app].
    rewrite (decodeList_encoded acc k (Some l)).
    2: done.
    2:{ apply Forall_forall. intros item Hi.
        rewrite forallb_forall in Hv. apply list_elem_of_In, Hv in Hi.
        by apply bool_decide_eq_true in Hi. }
    do 3 f_equal. cbn [length items default]. rewrite !length_app. cbn [length].
    pose proof (length_bytes_of k).
    pose proof (length_encodeItems l). unfold id. lia.
  - assert (Forall decodes es) as Hes.
    { apply Forall_forall. intros e He.
      rewrite Forall_forall in IH. apply IH; [done|].
      rewrite forallb_forall in Hv. by apply Hv, list_elem_of_In. }
    cbn [frame app] in Hf |- *.
    destruct fuel as [|f]; [cbn in Hf; lia|].
    destruct ((es ≫= frame) ++ msgSectionEnd :: rest) as [|b buf] eqn:Hb.
    { by destruct (es ≫= frame). }
    destruct (sectionLoop_frames es Hes f NewMessage b buf (len k + 2)
                msgSectionEnd rest) as [sec Hloop]; [done| |].
    { apply (f_equal length) in Hb. lengths. }
    exists msgSectionStart,
      (uint8 (len k) :: bytes_of k ++ (es ≫= frame) ++ [msgSectionEnd]),
      (addItem acc k (IMessage (Some sec))).1.
    split; [reflexivity|]. split; [by do 2 right; left|].
    unfold sectionSwitch. rewrite !bool_decide_eq_false_2 by done.
    rewrite bool_decide_eq_true_2 by done.
    cbn [app]. rewrite <- !app_assoc. cbn [app decodeSection_].
    read_key. rewrite Hb, Hloop.
    pose proof (length_frames_ge es) as Hge.
    destruct (f - length es)%nat as [|f'] eqn:Hf'.
    { apply (f_equal length) in Hb. lengths. }
    cbn [sectionLoop]. rewrite bool_decide_eq_true_2 by done.
    rewrite addItem_supported by done. cbn [fst]. do 3 f_equal.
    cbn [length]. rewrite !length_app. cbn [length].
    pose proof (length_bytes_of k). lia.
Qed.

Lemma bounded_all_decode es :
  forallb bounded es = true -> Forall decodes es.
Proof.
  rewrite forallb_forall, Forall_forall. intros H e He.
  by apply bounded_decodes, H, list_elem_of_In.
Qed.

(** ** The fuel does not matter *)

Lemma decodeSection_mono fuel :
  (∀ m data r,
     decodeSection_ fuel m data = Some r ->
     ∀ fuel', (fuel <= fuel')%nat -> decodeSection_ fuel' m data = Some r)
  ∧ (∀ section buf b count r,
       sectionLoop fuel section buf b count = Some r ->
       ∀ fuel', (fuel <= fuel')%nat ->
                sectionLoop fuel' section buf b count = Some r).
Proof.
  induction fuel as [|fuel [IHd IHl]]; [done|]. split.
  - intros m data r Hr [|fuel'] Hle; [lia|].
    cbn [decodeSection_] in Hr |- *.
    destruct data as [|n buf]; [done|].
    destruct (Next (int_of_byte n) buf) as [key buf1].
    case_bool_decide; [done|].
    destruct buf1 as [|b buf2]; [done|].
    destruct (sectionLoop fuel NewMessage buf2 b (int_of_byte n + 2))
      as [x|] eqn:Hloop; [|done].
    by rewrite (IHl _ _ _ _ _ Hloop fuel') by lia.
  - intros section buf b count r Hr [|fuel'] Hle; [lia|].
    cbn [sectionLoop] in Hr |- *.
    case_bool_decide; [done|].
    destruct (sectionSwitch (decodeSection_ fuel) section buf b)
      as [x|] eqn:Hsw; [|done].
    assert (sectionSwitch (decodeSection_ fuel') section buf b = Some x)
      as ->.
    { unfold sectionSwitch in Hsw |- *. repeat case_bool_decide; try done.
      apply (IHd _ _ _ Hsw). lia. }
    destruct x as [[n| |] section']; [|done..].
    destruct (Next n buf).2 as [|b' buf']; [done|].
    apply (IHl _ _ _ _ _ Hr). lia.
Qed.

Lemma decodeSection_fuel fuel m data r :
  decodeSection_ fuel m data = Some r -> decodeSection m data = r.
Proof.
  intros Hr. pose proof (decodeSection_decodeSection_ m data) as Hd.
  apply (proj1 (decodeSection_mono _)) with (fuel' := (fuel + S (length data))%nat)
    in Hr, Hd; [|lia..].
  congruence.
Qed.

(** ** What the element decoders accept

    An element that a decoder accepts is the frame of a bounded element:
    the decoders get through nothing else. *)

Lemma Next_inv n (buf l rest : list byte) :
  Next n buf = (l, rest) -> buf = l ++ rest.
Proof. unfold Next. intros [= <- <-]. by rewrite take_drop. Qed.

Lemma key_inv n buf key rest :
  Next (int_of_byte n) buf = (key, rest) ->
  len (string_of key) = int_of_byte n ->
  n :: buf = [uint8 (len (string_of key))] ++ bytes_of (string_of key) ++ rest
  ∧ len (string_of key) <= 255.
Proof.
  intros ->%Next_inv Hlen. rewrite Hlen, uint8_int_of_byte, bytes_of_string_of.
  split; [done|]. pose proof (int_of_byte_range n). lia.
Qed.

Lemma uint8_mod n : uint8 n = uint8 (n mod 256).
Proof. unfold uint8. by rewrite Z.mod_mod. Qed.

Lemma PutUint16_Uint16 (v : list byte) :
  length v = 2%nat ->
  PutUint16 (uint16 (Uint16 v)) = v ∧ Uint16 v <= 65535.
Proof.
  destruct v as [|hi [|lo [|]]]; try done. intros _.
  pose proof (int_of_byte_range hi). pose proof (int_of_byte_range lo).
  unfold Uint16, uint16, PutUint16. rewrite Z.mod_small by lia. split; [|lia].
  assert ((int_of_byte hi * 256 + int_of_byte lo) / 256 = int_of_byte hi)
    as -> by (symmetry; apply (Z.div_unique _ 256 _ (int_of_byte lo)); lia).
  rewrite (uint8_mod (_ + _)).
  assert ((int_of_byte hi * 256 + int_of_byte lo) mod 256 = int_of_byte lo)
    as -> by (symmetry; apply (Z.mod_unique _ 256 (int_of_byte hi)); lia).
  by rewrite !uint8_int_of_byte.
Qed.

Lemma value_inv (buf v buf1 value buf2 : list byte) :
  Next 2 buf = (v, buf1) ->
  length v = 2%nat ->
  Next (Uint16 v) buf1 = (value, buf2) ->
  len (string_of value) = Uint16 v ->
  buf = PutUint16 (uint16 (len (string_of value)))
          ++ bytes_of (string_of value) ++ buf2
  ∧ value_ok (string_of value) = true.
Proof.
  intros ->%Next_inv Hv ->%Next_inv Hlen.
  destruct (PutUint16_Uint16 v Hv) as [Hput Hle].
  rewrite Hlen, Hput, bytes_of_string_of. split; [done|].
  apply bool_decide_eq_true. lia.
Qed.

Lemma decodeKeyValue_accepted acc buf n acc' :
  decodeKeyValue acc buf = (Ok n, acc') ->
  ∃ e rest,
    bounded e = true
    ∧ msgKeyValue :: buf = frame e ++ rest
    ∧ n = Z.of_nat (length (frame e)) - 1.
Proof.
  unfold decodeKeyValue. destruct buf as [|n0 buf]; [done|].
  destruct (Next (int_of_byte n0) buf) as [key buf1] eqn:Hkey.
  case_bool_decide as Hk; [done|].
  destruct (Next 2 buf1) as [v buf2] eqn:Hv.
  case_bool_decide as Hv2; [done|].
  destruct (Next (Uint16 v) buf2) as [value buf3] eqn:Hvalue.
  case_bool_decide as Hval; [done|].
  rewrite addItem_supported by done. intros [= <- _].
  destruct (key_inv _ _ _ _ Hkey Hk) as [-> Hk255].
  destruct (value_inv _ _ _ _ _ Hv Hv2 Hvalue Hval) as [-> Hvok].
  exists (EKeyValue (string_of key) (string_of value)), buf3.
  split_and!.
  - cbn [bounded]. rewrite Hvok. by rewrite bool_decide_eq_true_2.
  - cbn [frame app]. by rewrite <- !app_assoc.
  - cbn [frame app length]. rewrite !length_app, length_PutUint16.
    pose proof (length_bytes_of (string_of key)).
    pose proof (length_bytes_of (string_of value)). lia.
Qed.

Lemma listLoop_accepted fuel : ∀ buf b acc count acc' count',
  listLoop fuel buf b acc count = Some (Ok (acc', count')) ->
  ∃ l rest,
    b :: buf = (l ≫= encodeItem) ++ msgListEnd :: rest
    ∧ forallb value_ok l = true
    ∧ count' = count + Z.of_nat (length (l ≫= encodeItem)).
Proof.
  induction fuel as [|fuel IH]; intros buf b acc count acc' count' Hrun;
    [done|].
  cbn [listLoop] in Hrun.
  case_bool_decide as Hend.
  { injection Hrun as <- <-. subst b. exists [], buf.
    split_and!; [done|done|]. cbn. lia. }
  case_bool_decide as Hitem; [done|]. subst b.
  destruct (Next 2 buf) as [v buf1] eqn:Hv.
  case_bool_decide as Hv2; [done|].
  destruct (Next (Uint16 v) buf1) as [value buf2] eqn:Hvalue.
  case_bool_decide as Hval; [done|].
  destruct (value_inv _ _ _ _ _ Hv Hv2 Hvalue Hval) as [-> Hvok].
  destruct buf2 as [|b' buf3]; [done|].
  apply IH in Hrun as (l & rest & Hl & Hok & ->).
  exists (string_of value :: l), rest. split_and!.
  - rewrite bind_cons. unfold encodeItem at 1. rewrite <- !app_assoc.
    cbn [app]. by rewrite Hl.
  - cbn [forallb]. by rewrite Hvok, Hok.
  - rewrite bind_cons, length_app, Nat2Z.inj_add, length_encodeItem.
    rewrite Hval. lia.
Qed.

Lemma decodeList_accepted acc buf n acc' :
  decodeList acc buf = (Ok n, acc') ->
  ∃ e rest,
    bounded e = true
    ∧ msgListStart :: buf = frame e ++ rest
    ∧ n = Z.of_nat (length (frame e)) - 1.
Proof.
  unfold decodeList. destruct buf as [|n0 buf]; [done|].
  destruct (Next (int_of_byte n0) buf) as [key buf1] eqn:Hkey.
  case_bool_decide as Hk; [done|].
  destruct buf1 as [|b buf2]; [done|].
  destruct (listLoop (S (length buf2)) buf2 b None (int_of_byte n0 + 2))
    as [[[l' c]| |]|] eqn:Hloop; cbn [default from_option id]; try done.
  rewrite addItem_supported by done. intros [= <- _].
  apply listLoop_accepted in Hloop as (l & rest & Hl & Hok & ->).
  destruct (key_inv _ _ _ _ Hkey Hk) as [-> Hk255].
  exists (EList (string_of key) l), rest. split_and!.
  - cbn [bounded]. rewrite Hok. by rewrite bool_decide_eq_true_2.
  - cbn [frame app]. rewrite Hl. by rewrite <- !app_assoc.
  - cbn [frame app length]. rewrite !length_app. cbn [length].
    pose proof (length_bytes_of (string_of key)). lia.
Qed.

Lemma sectionSwitch_accepted fuel :
  (∀ acc buf t n acc',
     sectionSwitch (decodeSection_ fuel) acc buf t = Some (Ok n, acc') ->
     ∃ e rest,
       bounded e = true
       ∧ t :: buf = frame e ++ rest
       ∧ n = Z.of_nat (length (frame e)) - 1)
  ∧ (∀ section buf b count count' section',
       sectionLoop fuel section buf b count = Some (Ok count', section') ->
       ∃ es rest,
         b :: buf = (es ≫= frame) ++ msgSectionEnd :: rest
         ∧ forallb bounded es = true
         ∧ count' = count + Z.of_nat (length (es ≫= frame))).
Proof.
  induction fuel as [|fuel [IHs IHl]].
  { split; [|done]. intros acc buf t n acc'. unfold sectionSwitch.
    repeat case_bool_decide; subst; try done.
    - intros [= Hkv]. by apply decodeKeyValue_accepted in Hkv.
    - intros [= Hlist]. by apply decodeList_accepted in Hlist. }
  assert (∀ acc buf t n acc',
     sectionSwitch (decodeSection_ (S fuel)) acc buf t = Some (Ok n, acc') ->
     ∃ e rest,
       bounded e = true
       ∧ t :: buf = frame e ++ rest
       ∧ n = Z.of_nat (length (frame e)) - 1) as Hs.
  { intros acc buf t n acc'. unfold sectionSwitch.
    repeat case_bool_decide; subst; try done.
    - intros [= Hkv]. by apply decodeKeyValue_accepted in Hkv.
    - intros [= Hlist]. by apply decodeList_accepted in Hlist.
    - cbn [decodeSection_]. destruct buf as [|n0 buf]; [done|].
      destruct (Next (int_of_byte n0) buf) as [key buf1] eqn:Hkey.
      case_bool_decide as Hk; [done|].
      destruct buf1 as [|b buf2]; [done|].
      destruct (sectionLoop fuel NewMessage buf2 b (int_of_byte n0 + 2))
        as [[[c| |] sec]|] eqn:Hloop; try done.
      rewrite addItem_supported by done. intros [= <- _].
      apply IHl in Hloop as (es & rest & Hes & Hok & ->).
      destruct (key_inv _ _ _ _ Hkey Hk) as [-> Hk255].
      exists (ESection (string_of key) es), rest. split_and!.
      + cbn [bounded]. rewrite Hok. by rewrite bool_decide_eq_true_2.
      + cbn [frame app]. rewrite Hes. by rewrite <- !app_assoc.
      + cbn [frame app length]. rewrite !length_app. cbn [length].
        pose proof (length_bytes_of (string_of key)). lia. }
  split; [exact Hs|].
  intros section buf b count count' section' Hrun.
  cbn [sectionLoop] in Hrun.
  case_bool_decide as Hend.
  { injection Hrun as <- <-. subst b. exists [], buf.
    split_and!; [done|done|]. cbn. lia. }
  destruct (sectionSwitch (decodeSection_ fuel) section buf b)
    as [[[n| |] sec]|] eqn:Hsw; try done.
  apply IHs in Hsw as (e & rest & He & Hframe & ->).
  destruct (frame e) as [|t tail] eqn:Hfe; [by destruct e|].
  cbn [app] in Hframe. injection Hframe as -> ->.
  rewrite Next_app in Hrun by (cbn [length]; lia). cbn [snd] in Hrun.
  destruct rest as [|b' buf']; [done|].
  apply IHl in Hrun as (es & rest' & Hes & Hok & ->).
  exists (e :: es), rest'. split_and!.
  - rewrite bind_cons, Hfe. cbn [app]. rewrite Hes.
    by rewrite <- app_assoc.
  - cbn [forallb]. by rewrite He, Hok.
  - rewrite bind_cons, Hfe, length_app. cbn [length]. lia.
Qed.

(** Each step of the loop of [decode] gets through a whole element or a
    byte that starts none. *)
Lemma messageSwitch_accepted acc buf t buf' acc' :
  messageSwitch acc buf t = (Ok buf', acc') ->
  ∃ c, passed c = true ∧ t :: buf = chunkBytes c ++ buf'.
Proof.
  unfold messageSwitch.
  assert (∀ r,
            sectionSwitch (decodeSection_ (S (length buf))) acc buf t = Some r ->
            advance r buf = (Ok buf', acc') ->
            ∃ c, passed c = true ∧ t :: buf = chunkBytes c ++ buf') as Hstep.
  { intros [[n| |] m1] Hsw; try done. cbn [advance]. intros [= <- <-].
    apply (proj1 (sectionSwitch_accepted _)) in Hsw
      as (e & rest & He & Hframe & ->).
    exists (Whole e). split; [done|]. cbn [chunkBytes].
    destruct (frame e) as [|t0 tail] eqn:Hfe; [by destruct e|].
    cbn [app] in Hframe. injection Hframe as -> ->.
    replace (Z.to_nat (Z.of_nat (length (t0 :: tail)) - 1))
      with (length tail) by (cbn [length]; lia).
    by rewrite drop_app_length. }
  unfold sectionSwitch in Hstep.
  repeat case_bool_decide; subst.
  - by apply Hstep.
  - by apply Hstep.
  - apply Hstep. apply decodeSection_decodeSection_.
  - intros [= <- <-]. exists (Stray t). split; [|done].
    by apply bool_decide_eq_true.
Qed.

(** ** Elements that are refused *)

(** At the top level the switch of [decode] returns the error of the
    element decoder. *)
Lemma messageSwitch_refused t tail e acc :
  refused t tail e -> (messageSwitch acc tail t).1 = Error e.
Proof.
  intros [Ht Hsw].
  destruct (Hsw (S (length tail)) acc) as [acc' Hacc]; [lia|].
  unfold sectionSwitch in Hacc. unfold messageSwitch, decodeSection.
  destruct (type_byte_cases t Ht) as [->|[->| ->]];
    repeat (rewrite bool_decide_eq_false_2 in Hacc |- * by done);
    rewrite bool_decide_eq_true_2 in Hacc |- * by done.
  - injection Hacc as ->. done.
  - injection Hacc as ->. done.
  - rewrite Hacc. done.
Qed.

Lemma refused_element t tail e :
  t ∈ [msgKeyValue; msgListStart; msgSectionStart] ->
  (∀ acc, t = msgKeyValue -> decodeKeyValue acc tail = (Error e, acc)) ->
  (∀ acc, t = msgListStart -> decodeList acc tail = (Error e, acc)) ->
  (∀ acc, t = msgSectionStart -> decodeSection acc tail = (Error e, acc)) ->
  refused t tail e.
Proof.
  intros Ht Hkv Hl Hs. split; [done|]. intros fuel acc Hf. exists acc.
  unfold sectionSwitch.
  destruct (type_byte_cases t Ht) as [->|[->| ->]];
    repeat (rewrite bool_decide_eq_false_2 by done);
    rewrite bool_decide_eq_true_2 by done.
  - by rewrite Hkv.
  - by rewrite Hl.
  - destruct (proj1 (decodeSection_total fuel) acc tail Hf) as [r Hr].
    rewrite Hr. f_equal. rewrite <- (Hs acc eq_refl).
    symmetry. by eapply decodeSection_fuel.
Qed.

Lemma refused_BadKey t n rest :
  t ∈ [msgKeyValue; msgListStart; msgSectionStart] ->
  Z.of_nat (length rest) < int_of_byte n ->
  refused t (n :: rest) errBadKey.
Proof.
  intros Ht Hn. apply refused_element; [done|intros acc _..].
  - by apply decodeKeyValue_BadKey.
  - by apply decodeList_BadKey.
  - by apply decodeSection_BadKey.
Qed.

Lemma refused_key_value t tail e :
  (∀ acc, decodeKeyValue acc tail = (Error e, acc)) ->
  t = msgKeyValue -> refused t tail e.
Proof.
  intros H ->. apply refused_element; [by left|done|done..].
Qed.

Lemma refused_list t tail e :
  (∀ acc, decodeList acc tail = (Error e, acc)) ->
  t = msgListStart -> refused t tail e.
Proof.
  intros H ->. apply refused_element; [by right; left|done|done|done].
Qed.

(** A section whose whole elements are followed by an element that is
    refused is refused with the same error. *)
Lemma refused_in_section k es t tail e :
  len k <= 255 ->
  forallb bounded es = true ->
  refused t tail e ->
  refused msgSectionStart
    (uint8 (len k) :: bytes_of k ++ (es ≫= frame) ++ t :: tail) e.
Proof.
  intros Hk Hes%bounded_all_decode [Ht Hsw].
  split; [by do 2 right; left|]. intros fuel acc Hf. exists acc.
  unfold sectionSwitch. rewrite !bool_decide_eq_false_2 by done.
  rewrite bool_decide_eq_true_2 by done.
  destruct fuel as [|f]; [lia|]. cbn [decodeSection_].
  read_key.
  destruct ((es ≫= frame) ++ t :: tail) as [|b buf] eqn:Hb.
  { by destruct (es ≫= frame). }
  pose proof (length_frames_ge es) as Hge.
  pose proof (length_bytes_of k) as Hlk.
  apply (f_equal length) in Hb as Hlen.
  destruct (sectionLoop_frames es Hes f NewMessage b buf (len k + 2) t tail)
    as [sec ->]; [done|lengths|].
  destruct (f - length es)%nat as [|f'] eqn:Hf'; [lengths|].
  cbn [sectionLoop].
  rewrite bool_decide_eq_false_2 by (by apply type_byte_not_end).
  destruct (Hsw f' sec) as [sec' ->]; [lengths|]. done.
Qed.

(** A section whose whole elements end the buffer. *)
Lemma sectionLoop_frames_eof es :
  Forall decodes es ->
  ∀ fuel acc b buf count,
    b :: buf = es ≫= frame ->
    (length buf + 2 <= fuel)%nat ->
    ∃ acc',
      sectionLoop fuel acc buf b count
      = Some (Error (errDecodingOf io_EOF), acc').
Proof.
  induction es as [|e es IH]; intros Hes fuel acc b buf count Hb Hf; [done|].
  apply Forall_cons in Hes as [He Hes]. rewrite bind_cons in Hb.
  destruct fuel as [|f]; [lia|].
  apply (f_equal length) in Hb as Hlen.
  destruct (He f acc (es ≫= frame)) as (t & tail & acc1 & Hframe & Ht & Hsw);
    [lengths|].
  rewrite Hframe in Hb. cbn [app] in Hb. injection Hb as -> ->.
  cbn [sectionLoop].
  rewrite bool_decide_eq_false_2 by (by apply type_byte_not_end).
  rewrite Hsw. rewrite Next_app by done. cbn [snd].
  destruct (es ≫= frame) as [|b2 buf2] eqn:Hrest; [by eexists|].
  eapply IH; [done|done|lengths].
Qed.

Lemma refused_unterminated_section k es :
  len k <= 255 ->
  forallb bounded es = true ->
  refused msgSectionStart (uint8 (len k) :: bytes_of k ++ (es ≫= frame))
    (errDecodingOf io_EOF).
Proof.
  intros Hk Hes%bounded_all_decode.
  split; [by do 2 right; left|]. intros fuel acc Hf. exists acc.
  unfold sectionSwitch. rewrite !bool_decide_eq_false_2 by done.
  rewrite bool_decide_eq_true_2 by done.
  destruct fuel as [|f]; [lia|]. cbn [decodeSection_].
  read_key.
  destruct (es ≫= frame) as [|b buf] eqn:Hb; [done|].
  pose proof (length_bytes_of k) as Hlk.
  destruct (sectionLoop_frames_eof es Hes f NewMessage b buf (len k + 2))
    as [sec ->]; [done|lengths|done].
Qed.

(** An element that is refused inside open sections makes the outermost
    of them refused. *)
Lemma refused_opened path : ∀ t tail e,
  openedOk path = true ->
  refused t tail e ->
  ∃ t' tail',
    opened path ++ t :: tail = t' :: tail'
    ∧ refused t' tail' e
    ∧ (tail ≠ [] ∨ path ≠ [] -> tail' ≠ []).
Proof.
  induction path as [|[k es] path IH]; intros t tail e Hok Href.
  { exists t, tail. split_and!; [done|done|]. by intros [?|?]. }
  cbn [openedOk forallb fst snd] in Hok.
  apply andb_true_iff in Hok as [Hkes Hok].
  apply andb_true_iff in Hkes as [Hk%bool_decide_eq_true Hes].
  destruct (IH t tail e Hok Href) as (t1 & tail1 & Hin & Href1 & _).
  exists msgSectionStart,
    (uint8 (len k) :: bytes_of k ++ (es ≫= frame) ++ t1 :: tail1).
  split_and!; [|by apply refused_in_section|done].
  unfold opened in Hin |- *. rewrite bind_cons. unfold opening at 1.
  cbn [fst snd app]. rewrite <- !app_assoc. cbn [app]. by rewrite Hin.
Qed.

(** ** The loop of [decode] over what it gets through *)

Lemma length_chunks_ge cs : (length cs <= length (cs ≫= chunkBytes))%nat.
Proof.
  induction cs as [|c cs IH]; [done|].
  rewrite bind_cons, length_app.
  destruct c as [e|b]; cbn; [pose proof (length_frame_pos e)|]; lia.
Qed.

Lemma decodeLoop_chunks cs : ∀ fuel acc b buf t tail,
  forallb passed cs = true ->
  b :: buf = (cs ≫= chunkBytes) ++ t :: tail ->
  ∃ acc', decodeLoop fuel acc buf b = decodeLoop (fuel - length cs) acc' tail t.
Proof.
  induction cs as [|c cs IH]; intros fuel acc b buf t tail Hcs Hb.
  { cbn in Hb. injection Hb as -> ->. exists acc. by rewrite Nat.sub_0_r. }
  cbn [forallb] in Hcs. apply andb_true_iff in Hcs as [Hc Hcs].
  rewrite bind_cons, <- app_assoc in Hb.
  destruct fuel as [|f]; [by exists acc|].
  destruct ((cs ≫= chunkBytes) ++ t :: tail) as [|b2 buf2] eqn:Hrest.
  { by destruct (cs ≫= chunkBytes). }
  destruct c as [e|b0]; cbn [passed chunkBytes] in Hc, Hb.
  - destruct (bounded_decodes e Hc
                (length (frame e) + length (b2 :: buf2))%nat
                acc (b2 :: buf2))
      as (t0 & tail0 & acc1 & Hframe & Ht0 & Hsw); [lia|].
    rewrite Hframe in Hb, Hsw. cbn [app] in Hb. injection Hb as -> ->.
    replace (length (t0 :: tail0) + length (b2 :: buf2))%nat
      with (S (length (tail0 ++ b2 :: buf2))) in Hsw by lengths.
    apply messageSwitch_sectionSwitch in Hsw.
    cbn [decodeLoop].
    rewrite bool_decide_eq_false_2 by (rewrite length_app; cbn; lia).
    rewrite Hsw. rewrite Next_app by done. cbn [snd].
    destruct (IH f acc1 b2 buf2 t tail Hcs) as [acc' ->]; [by rewrite Hrest|].
    by exists acc'.
  - apply bool_decide_eq_true in Hc as (H1 & H2 & H3).
    cbn [app] in Hb. injection Hb as -> ->.
    cbn [decodeLoop]. rewrite bool_decide_eq_false_2 by done.
    rewrite messageSwitch_other by done.
    destruct (IH f acc b2 buf2 t tail Hcs) as [acc' ->]; [by rewrite Hrest|].
    by exists acc'.
Qed.

(** After what [decode] gets through, an element that is refused makes
    [decode] fail with the same error. *)
Lemma decode_refused m top t tail e :
  forallb passed top = true ->
  refused t tail e ->
  tail ≠ [] ->
  (decode m ((top ≫= chunkBytes) ++ t :: tail)).1 = Error e.
Proof.
  intros Htop Href Htail. unfold decode.
  destruct ((top ≫= chunkBytes) ++ t :: tail) as [|b buf] eqn:Hb.
  { by destruct (top ≫= chunkBytes). }
  destruct (decodeLoop_chunks top (S (length (b :: buf))) m b buf t tail Htop)
    as [acc ->]; [by rewrite Hb|].
  pose proof (length_chunks_ge top) as Hge.
  apply (f_equal length) in Hb.
  destruct (S (length (b :: buf)) - length top)%nat eqn:Hf; [lengths|].
  cbn [decodeLoop].
  rewrite bool_decide_eq_false_2 by (by destruct tail).
  pose proof (messageSwitch_refused t tail e acc Href) as Hsw.
  destruct (messageSwitch acc tail t) as [[?| |] ?]; cbn in Hsw; try done.
  by injection Hsw as ->.
Qed.

Lemma decode_refused_inside m top path t tail e :
  forallb passed top = true ->
  openedOk path = true ->
  refused t tail e ->
  tail ≠ [] ∨ path ≠ [] ->
  (decode m (consumed top path ++ t :: tail)).1 = Error e.
Proof.
  intros Htop Hpath Href Htail.
  destruct (refused_opened path t tail e Hpath Href)
    as (t' & tail' & Heq & Href' & Hne).
  unfold consumed. rewrite <- app_assoc, Heq.
  apply decode_refused; auto.
Qed.

(** C4 (as the code has it).  Whatever the message decoded into, and
    whatever [decode] has got through before (whole elements and, at the top
    level, bytes that start no element: it gets through nothing else, see
    [sectionSwitch_accepted] and [messageSwitch_accepted]), at the top level
    and inside sections nested to any depth: an element whose declared key
    length exceeds the bytes that remain fails with the malformed-message
    error [errBadKey]; a key-value element or a list item whose declared
    value length exceeds the bytes that remain fails with the
    malformed-message error [errBadValue]; a list or a section whose bytes
    stop where its next item, element or end marker is expected, and an
    element inside a section of which only the type byte is there, fail with
    [errDecoding] wrapping [io.EOF], which is not a malformed-message
    error. *)
Theorem decode_truncated (m : Message) (top : list chunk)
    (path : list (string * list element)) :
  forallb passed top = true ->
  openedOk path = true ->
  (∀ t n rest,
     t ∈ [msgKeyValue; msgListStart; msgSectionStart] ->
     Z.of_nat (length rest) < int_of_byte n ->
     (decode m (consumed top path ++ t :: n :: rest)).1 = Error errBadKey)
  ∧ (∀ k hi lo rest,
       len k <= 255 ->
       Z.of_nat (length rest) < Uint16 [hi; lo] ->
       (decode m
          (consumed top path ++ msgKeyValue :: uint8 (len k) :: bytes_of k
             ++ hi :: lo :: rest)).1
       = Error errBadValue)
  ∧ (∀ k l hi lo rest,
       len k <= 255 ->
       Forall (fun item => len item <= 65535) l ->
       Z.of_nat (length rest) < Uint16 [hi; lo] ->
       (decode m
          (consumed top path ++ msgListStart :: uint8 (len k) :: bytes_of k
             ++ (l ≫= encodeItem) ++ msgListItem :: hi :: lo :: rest)).1
       = Error errBadValue)
  ∧ (∀ k l,
       len k <= 255 ->
       Forall (fun item => len item <= 65535) l ->
       (decode m
          (consumed top path ++ msgListStart :: uint8 (len k) :: bytes_of k
             ++ (l ≫= encodeItem))).1
       = Error (errDecodingOf io_EOF))
  ∧ (∀ k es,
       len k <= 255 ->
       forallb bounded es = true ->
       (decode m
          (consumed top path ++ msgSectionStart :: uint8 (len k) :: bytes_of k
             ++ (es ≫= frame))).1
       = Error (errDecodingOf io_EOF))
  ∧ (∀ t,
       path ≠ [] ->
       t ∈ [msgKeyValue; msgListStart; msgSectionStart] ->
       (decode m (consumed top path ++ [t])).1
       = Error (errDecodingOf io_EOF))
  ∧ malformed errBadKey = true
  ∧ malformed errBadValue = true
  ∧ malformed (errDecodingOf io_EOF) = false.
Proof.
  intros Htop Hpath. split_and!; try done.
  - intros t n rest Ht Hn.
    apply decode_refused_inside; [done|done| |by left].
    by apply refused_BadKey.
  - intros k hi lo rest Hk Hv.
    apply decode_refused_inside; [done|done| |by left].
    eapply refused_key_value; [|done].
    intros acc. by apply decodeKeyValue_BadValue.
  - intros k l hi lo rest Hk Hl Hv.
    apply decode_refused_inside; [done|done| |by left].
    eapply refused_list; [|done].
    intros acc. by apply decodeList_BadValue.
  - intros k l Hk Hl.
    apply decode_refused_inside; [done|done| |by left].
    eapply refused_list; [|done].
    intros acc. by apply decodeList_eof.
  - intros k es Hk Hes.
    apply decode_refused_inside; [done|done| |by left].
    by apply refused_unterminated_section.
  - intros t Hne Ht.
    apply decode_refused_inside; [done|done| |by right].
    by apply refused_element.
Qed.

Lemma decode_truncated_witness :
  (decode NewMessage
     [x03; x01; x61; x00; x01; x31; x09; x01; x01; x73;
      x04; x01; x6c; x05; x00; x01; x78; x06; x03; x05; x61]).1
  = Error errBadKey
  ∧ (decode NewMessage
       [x03; x01; x61; x00; x01; x31; x09; x01; x01; x73;
        x04; x01; x6c; x05; x00; x01; x78; x06;
        x04; x01; x74; x05; x00; x01; x79]).1
    = Error (errDecodingOf io_EOF).
Proof.
  pose proof (decode_truncated NewMessage
                [Whole (EKeyValue "a" "1"); Stray x09]
                [("s", [EList "l" ["x"]])] eq_refl eq_refl)
    as (Hkey & _ & _ & Hlist & _).
  split.
  - apply (Hkey msgKeyValue x05 [x61]); [by left|reflexivity].
  - apply (Hlist "t" ["y"]); [vm_compute; discriminate|].
    repeat constructor; vm_compute; discriminate.
Defined.

(** C4, counterexample.  A list and a section that reach the end of the
    buffer before their end marker, at the top level or inside a section,
    fail with [errDecoding] wrapping [io.EOF]; that error is not built on
    [errMalformedMessage]. *)
Lemma decode_unterminated_counterexample :
  decode NewMessage [x04; x01; x61] = (Error (errDecodingOf io_EOF), NewMessage)
  ∧ decode NewMessage [x01; x01; x61]
    = (Error (errDecodingOf io_EOF), NewMessage)
  ∧ decode NewMessage [x01; x01; x73; x04; x01; x6c]
    = (Error (errDecodingOf io_EOF), NewMessage)
  ∧ malformed (errDecodingOf io_EOF) = false.
Proof. split_and!; vm_compute; reflexivity. Qed.

(** ** Unrecognised type bytes *)

(** C2, at the failing input.  At the top level [decode] passes over a byte
    that starts no element: [09 09] decodes to the empty message and
    [09 03 01 61 00 00] to the message [a -> ""], both without error.  The
    same byte inside a section body or a list body is refused with
    [errExpectedBeginning]. *)
Theorem decode_passes_over_unknown_type_byte :
  decode NewMessage [x09; x09] = (Ok tt, NewMessage)
  ∧ decode NewMessage [x09; x03; x01; x61; x00; x00]
    = (Ok tt, (Set_ NewMessage "a" (IString "")).1)
  ∧ (decode NewMessage [x01; x01; x61; x09; x09]).1
    = Error errExpectedBeginning
  ∧ (decode NewMessage [x04; x01; x61; x09; x09]).1
    = Error errExpectedBeginning.
Proof. split_and!; vm_compute; reflexivity. Qed.

(** ** The schema mapper *)

Lemma rvalue_ind_nested (P : rvalue -> Prop) :
  (∀ s, P (RString s)) ->
  (∀ l, P (RStrings l)) ->
  (∀ p, P (RMessage p)) ->
  P (RStructPtr None) ->
  (∀ fs, Forall (fun f => P (fvalue f)) fs -> P (RStructPtr (Some fs))) ->
  (∀ fs, Forall (fun f => P (fvalue f)) fs -> P (RStruct fs)) ->
  (∀ z, P (RScalar z)) ->
  (∀ z, P (RMap z)) ->
  ∀ rv, P rv.
Proof.
  intros Hs Hl Hm Hnil Hptr Hstruct Hz Hmap. fix IH 1.
  intros [s|l|p|[fs|]|fs|z|z];
    [apply Hs|apply Hl|apply Hm| |apply Hnil| |apply Hz|apply Hmap].
  - apply Hptr.
    induction fs as [|[t e v] fs IHfs]; constructor; [apply IH|apply IHfs].
  - apply Hstruct.
    induction fs as [|[t e v] fs IHfs]; constructor; [apply IH|apply IHfs].
Qed.




Lemma newMessageTag_tagged t :
  skip (newMessageTag t) = false -> newMessageTag t = mkTag t false.
Proof. unfold newMessageTag. by case_bool_decide. Qed.




Lemma Zero_idemp rv : Zero (Zero rv) = Zero rv.
Proof.
  induction rv as [s|l|p| |fs IH|fs IH|z|z] using rvalue_ind_nested; try done.
  cbn [Zero]. f_equal. rewrite map_map. apply map_ext_Forall.
  eapply Forall_impl; [exact IH|]. intros f Hf. cbn. by rewrite Hf.
Qed.

Lemma found_false (fs : list field) : found false <$> fs = fs.
Proof. induction fs as [|f fs IH]; [done|]. cbn. by rewrite IH. Qed.

Lemma zeroField_idemp f : zeroField (zeroField f) = zeroField f.
Proof. unfold zeroField. cbn. by rewrite Zero_idemp. Qed.

Lemma found_true_zero (fs : list field) :
  found true <$> (zeroField <$> fs) = found true <$> fs.
Proof.
  rewrite <- list_fmap_compose. apply list_fmap_ext. intros i f _.
  apply zeroField_idemp.
Qed.

Lemma unmarshalFields_fresh_type msg fs :
  Forall (fun f => ∀ x, unmarshalField true (fvalue f) x
                        = unmarshalField true (Zero (fvalue f)) x) fs ->
  unmarshalFields unmarshalField msg true fs
  = unmarshalFields unmarshalField msg true (zeroField <$> fs).
Proof.
  induction fs as [|f fs IHfs]; [done|]. intros [Hf Hfs]%Forall_cons.
  specialize (IHfs Hfs). rewrite fmap_cons.
  cbn [unmarshalFields].
  fold (unmarshalFields unmarshalField msg true).
  rewrite <- IHfs. rewrite !found_true_zero.
  change (ftag (zeroField f)) with (ftag f).
  change (fexported (zeroField f)) with (fexported f).
  change (fvalue (zeroField f)) with (Zero (fvalue f)).
  change (found true (zeroField f)) with (zeroField (zeroField f)).
  rewrite !zeroField_idemp.
  change (found true f) with (zeroField f).
  destruct msg as [msg|].
  - destruct (data msg !! _) as [value|]; [|done]. by rewrite <- Hf.
  - rewrite !fmap_cons, found_true_zero.
    change (found true (zeroField f)) with (zeroField (zeroField f)).
    by rewrite zeroField_idemp.
Qed.

Lemma Zero_struct fs : Zero (RStruct fs) = RStruct (zeroField <$> fs).
Proof. reflexivity. Qed.

Lemma unmarshalField_struct fresh fs x :
  unmarshalField fresh (RStruct fs) x
  = match x with
    | IMessage msg =>
        match unmarshalFields unmarshalField msg true fs with
        | (Ok _, fs') => (Ok tt, RStruct fs')
        | (Error e, _) => (Error e, if fresh then Zero (RStruct fs) else RStruct fs)
        | (Panic, _) => (Panic, if fresh then Zero (RStruct fs) else RStruct fs)
        end
    | _ => (Error errUnmarshalNonMessage,
            if fresh then Zero (RStruct fs) else RStruct fs)
    end.
Proof. by destruct x. Qed.

(** With [fresh], [unmarshalField] reads the type of the field only. *)
Lemma unmarshalField_fresh_type rv x :
  unmarshalField true rv x = unmarshalField true (Zero rv) x.
Proof.
  revert x.
  induction rv as [s|l|p| |fs IH|fs IH|z|z] using rvalue_ind_nested;
    intros x; try done.
  rewrite Zero_struct, !unmarshalField_struct.
  rewrite <- Zero_struct, Zero_idemp, Zero_struct.
  destruct x as [| | |msg| |]; try done.
  by rewrite <- unmarshalFields_fresh_type.
Qed.

(** With [fresh], [unmarshalField] and the loop of [unmarshal] do what they
    do without it on the zero value that [reflect.New] makes. *)
Lemma unmarshalField_fresh rv x :
  unmarshalField true rv x = unmarshalField false (Zero rv) x.
Proof.
  destruct rv as [s|l|p|[fs|]|fs|z|z]; try done.
  rewrite Zero_struct, !unmarshalField_struct.
  destruct x as [| | |msg| |]; try done.
  rewrite <- unmarshalFields_fresh_type; [done|].
  apply Forall_forall. intros f _ y. apply unmarshalField_fresh_type.
Qed.

Lemma unmarshalFields_fresh msg (fs : list field) :
  unmarshalFields unmarshalField msg true fs
  = unmarshalFields unmarshalField msg false (zeroField <$> fs).
Proof.
  induction fs as [|f fs IH]; [done|]. rewrite fmap_cons.
  cbn [unmarshalFields].
  fold (unmarshalFields unmarshalField msg true).
  fold (unmarshalFields unmarshalField msg false).
  rewrite <- IH, !found_false.
  change (ftag (zeroField f)) with (ftag f).
  change (fexported (zeroField f)) with (fexported f).
  change (fvalue (zeroField f)) with (Zero (fvalue f)).
  change (found false (zeroField f)) with (zeroField f).
  change (found true f) with (zeroField f).
  change (found true <$> fs) with (zeroField <$> fs).
  destruct msg as [msg|]; [|done].
  destruct (data msg !! _) as [value|]; [|done].
  by rewrite <- unmarshalField_fresh.
Qed.

(** Fields that [unmarshal] looks up under a name the message does not
    hold are left as they were. *)
Lemma unmarshalFields_frame m fs : ∀ r fs',
  unmarshalFields unmarshalField (Some m) false fs = (r, fs') ->
  length fs' = length fs
  ∧ ∀ i f, fs !! i = Some f ->
           data m !! name (newMessageTag (ftag f)) = None ->
           fs' !! i = Some f.
Proof.
  induction fs as [|f fs IH]; intros r fs' Hrun.
  { cbn in Hrun. by injection Hrun as <- <-. }
  cbn [unmarshalFields] in Hrun.
  fold (unmarshalFields unmarshalField (Some m) false) in Hrun.
  destruct (unmarshalFields unmarshalField (Some m) false fs)
    as [r1 fs1] eqn:Hrest.
  destruct (IH r1 fs1 eq_refl) as [Hlen Hframe].
  assert (∀ g r fs', (r, fs') = (r1, g :: fs1) ->
            (g = f ∨ data m !! name (newMessageTag (ftag f)) ≠ None) ->
            length fs' = length (f :: fs)
            ∧ ∀ i f0, (f :: fs) !! i = Some f0 ->
                data m !! name (newMessageTag (ftag f0)) = None ->
                fs' !! i = Some f0) as Hstep.
  { intros g r' fs'' [= -> ->] Hg. split; [cbn; by rewrite Hlen|].
    intros [|i] f0 Hi Hnone; cbn in Hi |- *.
    - injection Hi as ->. destruct Hg as [->|Hg]; [done|by destruct Hg].
    - by apply Hframe. }
  destruct (data m !! name (newMessageTag (ftag f))) as [value|] eqn:Hlook.
  2:{ eapply Hstep; [symmetry; exact Hrun|by left]. }
  destruct (negb (fexported f)).
  { eapply Hstep; [symmetry; exact Hrun|by left]. }
  destruct (unmarshalField false (fvalue f) value) as [[[]| |] v'].
  - eapply Hstep; [symmetry; exact Hrun|]. by right.
  - injection Hrun as <- <-. rewrite found_false. split; [done|].
    intros [|i] f0 Hi Hnone; cbn in Hi |- *; [|done].
    injection Hi as ->. by rewrite Hlook in Hnone.
  - injection Hrun as <- <-. rewrite found_false. split; [done|].
    intros [|i] f0 Hi Hnone; cbn in Hi |- *; [|done].
    injection Hi as ->. by rewrite Hlook in Hnone.
Qed.

(** C9, at the failing input.  [unmarshal] does not consult the tag's
    [skip]: it looks an untagged field, and one tagged [-], up under the
    empty name.  With the message [{"": x}] both fields of the target are
    overwritten.  [marshal], on the same tags, skips both fields. *)
Theorem UnmarshalMessage_writes_untagged_fields :
  let m := (Set_ NewMessage "" (IString "x")).1 in
  let target := [mkField "" true (RString "old");
                 mkField "-" true (RString "kept")] in
  UnmarshalMessage m (RStructPtr (Some target))
  = (Ok tt, RStructPtr (Some [mkField "" true (RString "x");
                              mkField "-" true (RString "x")]))
  ∧ MarshalMessage (RStruct target) = Ok NewMessage.
Proof. split; vm_compute; reflexivity. Qed.

(** * Further properties *)

(** ** The message tree *)

(** X1.  [Set] keeps the invariant of the message tree, whatever the value
    and whether or not the call fails: every key is listed once in [Keys],
    and [Keys] lists exactly the keys under which [Get] finds an element. *)
Theorem Set_keeps_consistent (m : Message) (k : string) (v : iface) :
  consistent m -> consistent (Set_ m k v).1.
Proof. apply addItem_consistent. Qed.

Lemma Set_keeps_consistent_witness :
  consistent (Set_ NewMessage "a" (IStrings None)).1.
Proof.
  apply (Set_keeps_consistent NewMessage "a" (IStrings None)).
  split; [constructor|]. intros k. cbn. rewrite lookup_empty.
  split; [intros H; inversion H|intros [? ?]; discriminate].
Defined.

(** X2.  The errors of [Set].  [Set] returns no error for a string, a
    []string and a [*Message], a nil []string and a nil [*Message] included;
    an error that [Set] returns is [errUnsupportedType], and the value is
    then none of those: a slice or array of another type, a pointer to
    another type, or a value of a kind other than String, Slice, Array and
    Ptr.  (A value of kind String whose type is not [string], on which the
    type assertion of [addItem] panics, is not among the values of
    [iface].) *)
Theorem Set_errors (m : Message) (k : string) (v : iface) :
  (supported v = true -> (Set_ m k v).2 = None)
  ∧ (∀ e, (Set_ m k v).2 = Some e ->
          e = errUnsupportedType ∧ v ∈ [IOtherSlice; IOtherPtr; IOther])
  ∧ (Set_ m k (IStrings None)).2 = None
  ∧ (Set_ m k (IMessage None)).2 = None.
Proof.
  unfold Set_. split_and!; try done.
  - intros Hs. by rewrite addItem_supported.
  - intros e. destruct (supported v) eqn:Hs.
    + by rewrite addItem_supported.
    + rewrite addItem_unsupported by done. intros [= <-]. split; [done|].
      destruct v; try discriminate; set_solver.
Qed.

(** ** Encoding and [Set] *)

Lemma encodeElement_insert_ne m ks k v j :
  j ≠ k ->
  encodeElement (mkMessage ks (<[k:=v]> (data m))) j = encodeElement m j.
Proof.
  intros Hj. unfold encodeElement. cbn [data]. by rewrite lookup_insert_ne.
Qed.

Lemma encode_addItem_new m k v :
  consistent m ->
  data m !! k = None ->
  supported v = true ->
  encode (addItem m k v).1
  = match encode m with
    | Ok b =>
        match encodeValue v k with
        | Ok e => Ok (b ++ e)
        | Error x => Error x
        | Panic => Panic
        end
    | Error x => Error x
    | Panic => Panic
    end.
Proof.
  intros [_ Hdom] Hk Hv. rewrite addItem_supported by done.
  rewrite bool_decide_eq_false_2 by (rewrite Hk; by intros [? ?]).
  cbn [fst]. unfold encode at 1. cbn [keys].
  rewrite encodeElements_app.
  rewrite (encodeElements_ext _ (encodeElement m)).
  2:{ intros j Hj. apply encodeElement_insert_ne. intros ->.
      apply Hdom in Hj as [? Hj]. by rewrite Hk in Hj. }
  fold (encode m). destruct (encode m) as [b| |]; [|done..].
  cbn [encodeElements]. unfold encodeElement at 1. cbn [data].
  rewrite lookup_insert_eq.
  destruct (encodeValue v k) as [e| |]; [|done..]. by rewrite app_nil_r.
Qed.

(** X3.  Encoding follows insertion: when [Set] adds a new key to a message
    that [encode] accepts, the encoding of the result is the encoding of the
    message followed by the encoding of the new element. *)
Theorem encode_Set_new_key (m : Message) (k : string) (v : iface) :
  encodable m = true ->
  Get m k = None ->
  tree (fun _ => true) (fun _ => true) v = true ->
  ∃ b e, encode m = Ok b ∧ encodeValue v k = Ok e
         ∧ encode (Set_ m k v).1 = Ok (b ++ e).
Proof.
  intros Hm Hk Hv. unfold Set_.
  pose proof Hm as [Hc _]%tree_message.
  rewrite encode_addItem_new by (try done; by eapply tree_supported).
  destruct (encode_tree_ok _ _ m Hm) as [b ->].
  assert (∃ e, encodeValue v k = Ok e) as [e ->]; [|by exists b, e].
  destruct v as [s|l| |[s|]| |]; try discriminate; [by eexists..|].
  rewrite encodeValue_section. cbn.
  destruct (encode_tree_ok _ _ s Hv) as [body ->]. eauto.
Qed.

Lemma encode_Set_new_key_witness :
  let m := (Set_ NewMessage "a" (IString "1")).1 in
  ∃ b e, encode m = Ok b ∧ encodeValue (IStrings (Some ["x"])) "l" = Ok e
         ∧ encode (Set_ m "l" (IStrings (Some ["x"]))).1 = Ok (b ++ e).
Proof.
  intros m. apply (encode_Set_new_key m "l" (IStrings (Some ["x"])));
    vm_compute; reflexivity.
Defined.

(** X4.  [Set] accepts a nil [*Message], and [encode] then panics: for a
    message that [encode] accepts and a key it does not hold, setting the
    key to the nil pointer succeeds and makes [encode] dereference it. *)
Theorem encode_nil_section_panics (m : Message) (k : string) :
  encodable m = true ->
  Get m k = None ->
  (Set_ m k (IMessage None)).2 = None
  ∧ encode (Set_ m k (IMessage None)).1 = Panic.
Proof.
  intros Hm Hk. unfold Set_. split; [done|].
  pose proof Hm as [Hc _]%tree_message.
  rewrite encode_addItem_new by done.
  by destruct (encode_tree_ok _ _ m Hm) as [b ->].
Qed.

Lemma encode_nil_section_panics_witness :
  encode (Set_ (Set_ NewMessage "a" (IString "1")).1 "s" (IMessage None)).1
  = Panic.
Proof.
  apply (encode_nil_section_panics (Set_ NewMessage "a" (IString "1")).1 "s");
    vm_compute; reflexivity.
Defined.

(** ** Decoding past the encoding of a message *)

(** After the encoding of a well-formed message, the loop of [decode] goes
    on from the message decoded so far. *)
Lemma decode_prefix m0 pre t tail :
  wellFormed m0 = true ->
  encode m0 = Ok pre ->
  ∃ fuel,
    (length tail + 2 <= fuel)%nat
    ∧ decode NewMessage (pre ++ t :: tail)
      = default (Panic, NewMessage) (decodeLoop fuel (canonical m0) tail t).
Proof.
  intros Hwf Henc.
  exists (S (length (pre ++ t :: tail)) - length (keys m0))%nat.
  pose proof (encode_length_ge m0 (keys m0) pre Henc) as Hlen.
  split; [rewrite length_app; cbn [length]; lia|].
  unfold decode. destruct (pre ++ t :: tail) as [|b buf] eqn:Hb.
  { by destruct pre. }
  pose proof Hwf as [[_ Hdom] Hall]%tree_message.
  erewrite (decodeLoop_encoded m0 (keys m0) pre _ NewMessage b buf
              (t :: tail)); [| |exact Henc|by rewrite Hb].
  2:{ intros j [v Hv]%Hdom. destruct (Hall j v Hv). eauto. }
  by rewrite (addAll_canonical _ _ _ Hwf).
Qed.

(** X5.  One byte left over is not looked at: the encoding of a well-formed
    message followed by a single byte, whatever the byte (a type byte
    included), decodes without error to the same message as the encoding
    alone. *)
Theorem decode_ignores_last_byte (m0 : Message) (pre : list byte) (b : byte) :
  wellFormed m0 = true ->
  encode m0 = Ok pre ->
  decode NewMessage (pre ++ [b]) = (Ok tt, canonical m0).
Proof.
  intros Hwf Henc.
  destruct (decode_prefix m0 pre b [] Hwf Henc) as (fuel & Hf & ->).
  destruct fuel as [|fuel]; [cbn in Hf; lia|]. done.
Qed.

Lemma decode_ignores_last_byte_witness :
  decode NewMessage ([x03; x01; x61; x00; x01; x31] ++ [msgSectionStart])
  = (Ok tt, canonical (Set_ NewMessage "a" (IString "1")).1).
Proof.
  apply (decode_ignores_last_byte (Set_ NewMessage "a" (IString "1")).1);
    vm_compute; reflexivity.
Defined.

(** X6.  Decoding composes with [Set]: the encoding of a well-formed message
    followed by the encoding of one more key-value element decodes to the
    decoded message with the key set to the value.  A key the message
    already holds is thus overwritten where it stands. *)
Theorem decode_append_key_value (m0 : Message) (pre e : list byte)
    (k v : string) :
  wellFormed m0 = true ->
  encode m0 = Ok pre ->
  len k <= 255 -> len v <= 65535 ->
  encodeKeyValue k v = Ok e ->
  decode NewMessage (pre ++ e)
  = (Ok tt, (Set_ (canonical m0) k (IString v)).1)
  ∧ (is_Some (Get m0 k) ->
     Keys (Set_ (canonical m0) k (IString v)).1 = Keys m0).
Proof.
  intros Hwf Henc Hk Hv He. split.
  - assert (e = msgKeyValue :: uint8 (len k) :: bytes_of k
                  ++ PutUint16 (uint16 (len v)) ++ bytes_of v) as ->.
    { by injection He as <-. }
    destruct (decode_prefix m0 pre msgKeyValue
                (uint8 (len k) :: bytes_of k ++ PutUint16 (uint16 (len v))
                   ++ bytes_of v) Hwf Henc) as (fuel & Hf & ->).
    destruct fuel as [|[|fuel]]; [cbn in Hf; lia..|].
    cbn [decodeLoop]. rewrite bool_decide_eq_false_2 by done.
    unfold messageSwitch. rewrite bool_decide_eq_true_2 by done.
    rewrite <- (app_nil_r (bytes_of v)) at 1.
    rewrite decodeKeyValue_encoded by done. cbn [advance].
    assert ((Next (len k + len v + 3)
               (uint8 (len k) :: bytes_of k ++ PutUint16 (uint16 (len v))
                  ++ bytes_of v)).2 = []) as ->; [|done].
    unfold Next. cbn [snd]. apply drop_ge.
    cbn [length]. rewrite !length_app, length_PutUint16.
    pose proof (length_bytes_of k). pose proof (length_bytes_of v). lia.
  - intros [x Hx]. unfold Set_, Keys, Get in *.
    rewrite addItem_supported by done.
    rewrite bool_decide_eq_true_2; [done|].
    cbn [canonical data]. rewrite lookup_fmap, Hx. by eexists.
Qed.

Lemma decode_append_key_value_witness :
  decode NewMessage
    ([x03; x01; x61; x00; x01; x31; x03; x01; x62; x00; x00]
       ++ [x03; x01; x61; x00; x01; x32])
  = (Ok tt,
     (Set_ (canonical (Set_ (Set_ NewMessage "a" (IString "1")).1
                         "b" (IString "")).1) "a" (IString "2")).1).
Proof.
  refine (proj1 (decode_append_key_value
                   (Set_ (Set_ NewMessage "a" (IString "1")).1
                      "b" (IString "")).1 _ _ "a" "2" _ _ _ _ _));
    vm_compute; (reflexivity || discriminate).
Defined.

(** ** Bytes that start no element, and missing length bytes *)

Lemma decodeSection_unexpected m k s body b rest :
  len k <= 255 ->
  wellFormed s = true ->
  encode s = Ok body ->
  b ≠ msgSectionEnd -> b ≠ msgKeyValue -> b ≠ msgListStart ->
  b ≠ msgSectionStart ->
  decodeSection m (uint8 (len k) :: bytes_of k ++ body ++ b :: rest)
  = (Error errExpectedBeginning, m).
Proof.
  intros Hk Hwf Henc Hb2 Hb3 Hb4 Hb1. unfold decodeSection.
  cbn [decodeSection_]. read_key.
  destruct (body ++ b :: rest) as [|b0 buf] eqn:Hb. { by destruct body. }
  pose proof Hwf as [[_ Hdom] Hall]%tree_message.
  erewrite (sectionLoop_encoded s (fun j c _ => section_round_trip_all c)
              (keys s) body _ NewMessage b0 buf _ b rest);
    [| |exact Henc|symmetry; exact Hb|].
  2:{ intros j [v Hv]%Hdom. destruct (Hall j v Hv). eauto. }
  2:{ cbn [length]. rewrite length_app. cbn [length]. lia. }
  pose proof (encode_length_ge s (keys s) body Henc) as Hlen.
  apply (f_equal length) in Hb. rewrite length_app in Hb. cbn [length] in Hb.
  destruct (_ - length (keys s))%nat as [|f'] eqn:Hf'.
  { cbn [length] in Hf'. rewrite length_app in Hf'. cbn [length] in Hf'. lia. }
  cbn [sectionLoop]. rewrite bool_decide_eq_false_2 by done.
  by rewrite sectionSwitch_other.
Qed.

Lemma decodeList_unexpected m k l b rest :
  len k <= 255 ->
  Forall (fun item => len item <= 65535) l ->
  b ≠ msgListEnd -> b ≠ msgListItem ->
  decodeList m (uint8 (len k) :: bytes_of k ++ (l ≫= encodeItem) ++ b :: rest)
  = (Error errExpectedBeginning, m).
Proof.
  intros Hk Hl Hb6 Hb5. unfold decodeList. read_key.
  destruct ((l ≫= encodeItem) ++ b :: rest) as [|b0 buf] eqn:Hb.
  { by destruct (l ≫= encodeItem). }
  erewrite listLoop_items; [|done|symmetry; exact Hb].
  assert (length l < S (length buf))%nat as Hf.
  { apply (f_equal length) in Hb. rewrite length_app in Hb. cbn in Hb.
    pose proof (length_encodeItems_ge l). lia. }
  destruct (S (length buf) - length l)%nat as [|f] eqn:Hf'; [lia|].
  cbn [listLoop]. rewrite bool_decide_eq_false_2 by done.
  by rewrite bool_decide_eq_true_2.
Qed.

(** X7.  Inside a section and inside a list an unexpected type byte is an
    error.  After the encoding of any well-formed message: a section whose
    well-formed elements are followed by a byte other than 1, 2, 3, 4, and a
    list whose items are followed by a byte other than 5 and 6, make
    [decode] fail with [errExpectedBeginning]. *)
Theorem decode_unexpected_type_byte (m0 : Message) (pre : list byte) :
  wellFormed m0 = true ->
  encode m0 = Ok pre ->
  (∀ k s body b rest,
     len k <= 255 ->
     wellFormed s = true ->
     encode s = Ok body ->
     b ∉ [msgSectionStart; msgSectionEnd; msgKeyValue; msgListStart] ->
     (decode NewMessage
        (pre ++ msgSectionStart :: uint8 (len k) :: bytes_of k
           ++ body ++ b :: rest)).1
     = Error errExpectedBeginning)
  ∧ (∀ k l b rest,
       len k <= 255 ->
       Forall (fun item => len item <= 65535) l ->
       b ∉ [msgListItem; msgListEnd] ->
       (decode NewMessage
          (pre ++ msgListStart :: uint8 (len k) :: bytes_of k
             ++ (l ≫= encodeItem) ++ b :: rest)).1
       = Error errExpectedBeginning).
Proof.
  intros Hwf Hpre. split.
  - intros k s body b rest Hk Hs Hbody Hb.
    rewrite !not_elem_of_cons in Hb. destruct Hb as (?&?&?&?&_).
    apply (decode_after_prefix m0); [done..|].
    intros acc. apply messageSwitch_error. right; right.
    split; [done|by apply (decodeSection_unexpected _ _ s)].
  - intros k l b rest Hk Hl Hb.
    rewrite !not_elem_of_cons in Hb. destruct Hb as (?&?&_).
    apply (decode_after_prefix m0); [done..|].
    intros acc. apply messageSwitch_error. right; left.
    split; [done|by apply decodeList_unexpected].
Qed.

Lemma decode_unexpected_type_byte_witness :
  (decode NewMessage
     ([x03; x01; x61; x00; x01; x31]
        ++ msgListStart :: uint8 (len "l") :: bytes_of "l"
        ++ (["x"] ≫= encodeItem) ++ msgKeyValue :: [x01; x62; x00; x00])).1
  = Error errExpectedBeginning.
Proof.
  refine (proj2 (decode_unexpected_type_byte
                   (Set_ NewMessage "a" (IString "1")).1
                   [x03; x01; x61; x00; x01; x31] _ _)
            "l" ["x"] msgKeyValue [x01; x62; x00; x00] _ _ _).
  - vm_compute. reflexivity.
  - vm_compute. reflexivity.
  - vm_compute. discriminate.
  - repeat constructor; vm_compute; discriminate.
  - rewrite !not_elem_of_cons. split_and!; try done. apply not_elem_of_nil.
Defined.

Lemma decodeKeyValue_EndOfBuffer m k (short : list byte) :
  len k <= 255 ->
  (length short < 2)%nat ->
  decodeKeyValue m (uint8 (len k) :: bytes_of k ++ short)
  = (Error errEndOfBuffer, m).
Proof.
  intros Hk Hs. unfold decodeKeyValue. read_key.
  assert (length (Next 2 short).1 ≠ 2%nat) as Hlen.
  { unfold Next. cbn [fst]. rewrite length_take. lia. }
  destruct (Next 2 short) as [v buf]. by rewrite bool_decide_eq_true_2.
Qed.

Lemma decodeList_EndOfBuffer m k l (short : list byte) :
  len k <= 255 ->
  Forall (fun item => len item <= 65535) l ->
  (length short < 2)%nat ->
  decodeList m
    (uint8 (len k) :: bytes_of k ++ (l ≫= encodeItem) ++ msgListItem :: short)
  = (Error errEndOfBuffer, m).
Proof.
  intros Hk Hl Hs. unfold decodeList. read_key.
  destruct ((l ≫= encodeItem) ++ msgListItem :: short) as [|b0 buf] eqn:Hb.
  { by destruct (l ≫= encodeItem). }
  erewrite listLoop_items; [|done|symmetry; exact Hb].
  assert (length l < S (length buf))%nat as Hf.
  { apply (f_equal length) in Hb. rewrite length_app in Hb. cbn in Hb.
    pose proof (length_encodeItems_ge l). lia. }
  destruct (S (length buf) - length l)%nat as [|f] eqn:Hf'; [lia|].
  cbn [listLoop]. rewrite bool_decide_eq_false_2 by done.
  rewrite bool_decide_eq_false_2 by (intros ?; done).
  assert (length (Next 2 short).1 ≠ 2%nat) as Hlen.
  { unfold Next. cbn [fst]. rewrite length_take. lia. }
  destruct (Next 2 short) as [v buf']. by rewrite bool_decide_eq_true_2.
Qed.

(** X8.  A value length cut short is a malformed message.  After the
    encoding of any well-formed message: a key-value element, and a list
    item, with fewer than the two bytes of the value length left make
    [decode] fail with [errEndOfBuffer]. *)
Theorem decode_missing_length_bytes (m0 : Message) (pre : list byte) :
  wellFormed m0 = true ->
  encode m0 = Ok pre ->
  (∀ k (short : list byte),
     len k <= 255 ->
     (length short < 2)%nat ->
     (decode NewMessage
        (pre ++ msgKeyValue :: uint8 (len k) :: bytes_of k ++ short)).1
     = Error errEndOfBuffer)
  ∧ (∀ k l (short : list byte),
       len k <= 255 ->
       Forall (fun item => len item <= 65535) l ->
       (length short < 2)%nat ->
       (decode NewMessage
          (pre ++ msgListStart :: uint8 (len k) :: bytes_of k
             ++ (l ≫= encodeItem) ++ msgListItem :: short)).1
       = Error errEndOfBuffer)
  ∧ malformed errEndOfBuffer = true.
Proof.
  intros Hwf Hpre. split_and!; [| |done].
  - intros k short Hk Hs. apply (decode_after_prefix m0); [done..|].
    intros acc. apply messageSwitch_error. left.
    split; [done|by apply decodeKeyValue_EndOfBuffer].
  - intros k l short Hk Hl Hs. apply (decode_after_prefix m0); [done..|].
    intros acc. apply messageSwitch_error. right; left.
    split; [done|by apply decodeList_EndOfBuffer].
Qed.

Lemma decode_missing_length_bytes_witness :
  (decode NewMessage
     ([x03; x01; x61; x00; x01; x31]
        ++ msgKeyValue :: uint8 (len "b") :: bytes_of "b" ++ [x00])).1
  = Error errEndOfBuffer.
Proof.
  refine (proj1 (decode_missing_length_bytes
                   (Set_ NewMessage "a" (IString "1")).1
                   [x03; x01; x61; x00; x01; x31] _ _) "b" [x00] _ _).
  - vm_compute. reflexivity.
  - vm_compute. reflexivity.
  - vm_compute. discriminate.
  - cbn. lia.
Defined.

(** ** What [decode] returns and what it leaves in the message *)

Lemma addItem_tree p q m k v :
  tree p q (IMessage (Some m)) = true ->
  p k = true ->
  tree p q v = true ->
  tree p q (IMessage (Some (addItem m k v).1)) = true.
Proof.
  rewrite !tree_message. intros [Hc Hall] Hp Hv.
  split; [by apply addItem_consistent|]. intros j x.
  rewrite addItem_supported by (by eapply tree_supported).
  assert (<[k:=v]> (data m) !! j = Some x -> p j = true ∧ tree p q x = true)
    as Hins.
  { destruct (decide (j = k)) as [->|Hne].
    - rewrite lookup_insert_eq. by intros [= <-].
    - rewrite lookup_insert_ne by done. apply Hall. }
  by case_bool_decide.
Qed.

Lemma addItem_encodable m k v :
  encodable m = true ->
  tree (fun _ => true) (fun _ => true) v = true ->
  encodable (addItem m k v).1 = true.
Proof. intros Hm Hv. by apply addItem_tree. Qed.

(** The call of [addItem] that ends an element decoder: it stores a
    supported value, so it returns no error. *)
Ltac stored m k v :=
  let Hnone := fresh "Hnone" in
  pose proof (addItem_encodable m k v) as Hstored;
  pose proof (addItem_supported m k v eq_refl) as Hnone;
  destruct (addItem m k v) as [? ?];
  cbn [fst] in Hstored; injection Hnone as _ ->.

Lemma decodeKeyValue_decoded m data r m' :
  decodeKeyValue m data = (r, m') ->
  decoded r ∧ (encodable m = true -> encodable m' = true).
Proof.
  unfold decodeKeyValue. intros Hrun.
  destruct data as [|n buf]; [by injection Hrun as <- <-|].
  destruct (Next (int_of_byte n) buf) as [key buf1].
  case_bool_decide; [by injection Hrun as <- <-|].
  destruct (Next 2 buf1) as [v buf2].
  case_bool_decide; [by injection Hrun as <- <-|].
  destruct (Next (Uint16 v) buf2) as [value buf3].
  case_bool_decide; [by injection Hrun as <- <-|].
  stored m (string_of key) (IString (string_of value)).
  injection Hrun as <- <-. split; [done|]. intros Hm. by apply Hstored.
Qed.

Lemma listLoop_decoded fuel : ∀ buf b acc count r,
  listLoop fuel buf b acc count = Some r -> decoded r.
Proof.
  induction fuel as [|fuel IH]; intros buf b acc count r Hrun; [done|].
  cbn [listLoop] in Hrun.
  case_bool_decide; [by injection Hrun as <-|].
  case_bool_decide; [by injection Hrun as <-|].
  destruct (Next 2 buf) as [v buf1].
  case_bool_decide; [by injection Hrun as <-|].
  destruct (Next (Uint16 v) buf1) as [value buf2].
  case_bool_decide; [by injection Hrun as <-|].
  destruct buf2 as [|b' buf3]; [by injection Hrun as <-|].
  by eapply IH.
Qed.

Lemma decodeList_decoded m data r m' :
  decodeList m data = (r, m') ->
  decoded r ∧ (encodable m = true -> encodable m' = true).
Proof.
  unfold decodeList. intros Hrun.
  destruct data as [|n buf]; [by injection Hrun as <- <-|].
  destruct (Next (int_of_byte n) buf) as [key buf1].
  case_bool_decide; [by injection Hrun as <- <-|].
  destruct buf1 as [|b buf2]; [by injection Hrun as <- <-|].
  destruct (decodeList_listLoop buf2 b None (int_of_byte n + 2)) as [x Hx].
  rewrite Hx in Hrun. cbn [default] in Hrun.
  apply listLoop_decoded in Hx.
  destruct x as [[l count]| |]; [|by injection Hrun as <- <-..].
  cbv [default from_option id] in Hrun.
  stored m (string_of key) (IStrings l).
  injection Hrun as <- <-. split; [done|]. intros Hm.
  apply Hstored; [done|]. cbn. by apply forallb_forall.
Qed.

Lemma decodeSection_decoded fuel :
  (∀ m data r m',
     decodeSection_ fuel m data = Some (r, m') ->
     decoded r ∧ (encodable m = true -> encodable m' = true))
  ∧ (∀ section buf b count r section',
       sectionLoop fuel section buf b count = Some (r, section') ->
       decoded r ∧ (encodable section = true -> encodable section' = true)).
Proof.
  induction fuel as [|fuel [IHd IHl]]; [split; intros; discriminate|]. split.
  - intros m data r m' Hrun. cbn [decodeSection_] in Hrun.
    destruct data as [|n buf]; [by injection Hrun as <- <-|].
    destruct (Next (int_of_byte n) buf) as [key buf1].
    case_bool_decide; [by injection Hrun as <- <-|].
    destruct buf1 as [|b buf2]; [by injection Hrun as <- <-|].
    destruct (sectionLoop fuel NewMessage buf2 b (int_of_byte n + 2))
      as [[x section]|] eqn:Hloop; [|done].
    apply IHl in Hloop as [Hx Hsection].
    destruct x as [count| |]; [|by injection Hrun as <- <-..].
    stored m (string_of key) (IMessage (Some section)).
    injection Hrun as <- <-. split; [done|]. intros Hm.
    apply Hstored; [done|]. by apply Hsection.
  - intros section buf b count r section' Hrun. cbn [sectionLoop] in Hrun.
    case_bool_decide; [by injection Hrun as <- <-|].
    assert (∀ x s1, sectionSwitch (decodeSection_ fuel) section buf b
                    = Some (x, s1) ->
              decoded x ∧ (encodable section = true -> encodable s1 = true))
      as Hsw.
    { unfold sectionSwitch. intros x s1 Hx. repeat case_bool_decide.
      - injection Hx as Hx. by apply decodeKeyValue_decoded in Hx.
      - injection Hx as Hx. by apply decodeList_decoded in Hx.
      - by apply IHd in Hx.
      - by injection Hx as <- <-. }
    destruct (sectionSwitch (decodeSection_ fuel) section buf b)
      as [[x s1]|]; [|done].
    destruct (Hsw x s1 eq_refl) as [Hx Hs1].
    destruct x as [n| |]; [|by injection Hrun as <- <-..].
    destruct (Next n buf).2 as [|b' buf'].
    + injection Hrun as <- <-. done.
    + apply IHl in Hrun as [Hr Hs']. split; [done|]. intros. by apply Hs', Hs1.
Qed.

Lemma decodeSection_wrapper_decoded m data r m' :
  decodeSection m data = (r, m') ->
  decoded r ∧ (encodable m = true -> encodable m' = true).
Proof.
  intros Hrun. eapply (proj1 (decodeSection_decoded (S (length data)))).
  by rewrite decodeSection_decodeSection_, Hrun.
Qed.

Lemma messageSwitch_decoded m buf b r m' :
  messageSwitch m buf b = (r, m') ->
  decoded r ∧ (encodable m = true -> encodable m' = true).
Proof.
  unfold messageSwitch, advance. intros Hrun.
  repeat case_bool_decide.
  - destruct (decodeKeyValue m buf) as [x m1] eqn:Hx.
    apply decodeKeyValue_decoded in Hx.
    destruct x; by injection Hrun as <- <-.
  - destruct (decodeList m buf) as [x m1] eqn:Hx.
    apply decodeList_decoded in Hx.
    destruct x; by injection Hrun as <- <-.
  - destruct (decodeSection m buf) as [x m1] eqn:Hx.
    apply decodeSection_wrapper_decoded in Hx.
    destruct x; by injection Hrun as <- <-.
  - by injection Hrun as <- <-.
Qed.

Lemma decodeLoop_decoded fuel : ∀ m buf b r m',
  decodeLoop fuel m buf b = Some (r, m') ->
  decoded r ∧ (encodable m = true -> encodable m' = true).
Proof.
  induction fuel as [|fuel IH]; intros m buf b r m' Hrun; [done|].
  cbn [decodeLoop] in Hrun.
  case_bool_decide; [by injection Hrun as <- <-|].
  destruct (messageSwitch m buf b) as [x m1] eqn:Hx.
  apply messageSwitch_decoded in Hx as [Hx Hm1].
  destruct x as [buf'| |]; [|by injection Hrun as <- <-..].
  destruct buf' as [|b' buf'']; apply IH in Hrun as [Hr Hm'];
    (split; [done|]); intros; by apply Hm', Hm1.
Qed.

Lemma decode_decoded m data :
  decoded (decode m data).1
  ∧ (encodable m = true -> encodable (decode m data).2 = true).
Proof.
  destruct (decode_total m data) as (r & <- & Hr).
  destruct (decode m data) as [x m']. by apply decodeLoop_decoded in Hr.
Qed.

(** X9.  The errors of [decode].  Whatever the input, an error that
    [decode] returns is one of the four malformed-message errors
    [errBadKey], [errBadValue], [errEndOfBuffer] and [errExpectedBeginning],
    or [errDecoding] wrapping [io.EOF]: the [errUnsupportedType] of
    [addItem] never comes out of it, wrapped or not, since the decoders
    store strings, []strings and messages only. *)
Theorem decode_errors (m : Message) (data : list byte) (e : error) :
  (decode m data).1 = Error e ->
  e = errBadKey
  ∨ e = errBadValue
  ∨ e = errEndOfBuffer
  ∨ e = errExpectedBeginning
  ∨ e = errDecodingOf io_EOF.
Proof.
  intros He. destruct (decode_decoded m data) as [Hr _].
  rewrite He in Hr. cbn in Hr.
  destruct e as [| | | | | | |[]| | | | |]; try discriminate; eauto 10.
Qed.

Lemma decode_errors_witness :
  errDecodingOf io_EOF = errBadKey
  ∨ errDecodingOf io_EOF = errBadValue
  ∨ errDecodingOf io_EOF = errEndOfBuffer
  ∨ errDecodingOf io_EOF = errExpectedBeginning
  ∨ errDecodingOf io_EOF = errDecodingOf io_EOF.
Proof.
  apply (decode_errors (Set_ NewMessage "a" (IString "1")).1
           [x03; x01; x62; x00; x00; x01; x01; x63; x04]).
  vm_compute. reflexivity.
Defined.

(** X10.  Whatever [decode] leaves in the message can be encoded.  If the
    receiver is a message that [encode] accepts (the new message is one),
    then after [decode], failed or not, it still is: its keys are listed
    once and are those of its map, it holds only strings, lists and non-nil
    sections, and [encode] returns bytes for it. *)
Theorem decode_keeps_encodable (m : Message) (data : list byte) :
  encodable m = true ->
  encodable (decode m data).2 = true
  ∧ consistent (decode m data).2
  ∧ ∃ bs, encode (decode m data).2 = Ok bs.
Proof.
  intros Hm. destruct (decode_decoded m data) as [_ Hm'].
  specialize (Hm' Hm). split; [done|]. split.
  - by apply tree_message in Hm' as [? _].
  - by eapply encode_tree_ok.
Qed.

Lemma decode_keeps_encodable_witness :
  ∃ bs, encode (decode NewMessage [x03; x01; x61; x00; x01; x31; x04; x01]).2
        = Ok bs.
Proof.
  apply (decode_keeps_encodable NewMessage
           [x03; x01; x61; x00; x01; x31; x04; x01]).
  vm_compute. reflexivity.
Defined.

(** ** Encoding what [decode] returned *)

Lemma encodeValue_canon v : ∀ k, encodeValue (canon v) k = encodeValue v k.
Proof.
  remember (depth v) as n eqn:Hn. revert v Hn.
  induction (lt_wf n) as [n _ IH]. intros v -> k.
  destruct v as [?|l| |[m|]| |]; try done.
  - cbn [canon encodeValue]. unfold encodeList. do 5 f_equal.
    by destruct l as [[|]|].
  - change (canon (IMessage (Some m))) with (IMessage (Some (canonical m))).
    rewrite !encodeValue_section. cbn [encodeSection]. unfold encode.
    cbn [canonical keys].
    rewrite (encodeElements_ext _ (encodeElement m)); [done|].
    intros j _. unfold encodeElement, canonical. cbn [data].
    rewrite lookup_fmap.
    destruct (data m !! j) as [v|] eqn:Hj; [|done]. cbn [fmap option_fmap option_map].
    eapply IH; [|done]. by apply depth_lookup in Hj.
Qed.

Lemma encode_canonical m : encode (canonical m) = encode m.
Proof.
  pose proof (encodeValue_canon (IMessage (Some m)) "") as H.
  change (canon (IMessage (Some m))) with (IMessage (Some (canonical m))) in H.
  rewrite !encodeValue_section in H. cbn [encodeSection] in H.
  destruct (encode (canonical m)), (encode m); try done; try congruence.
  injection H as H. by apply app_inv_tail in H as ->.
Qed.

Lemma decode_encoded m bs :
  wellFormed m = true ->
  encode m = Ok bs ->
  decode NewMessage bs = (Ok tt, canonical m).
Proof.
  intros Hwf Hbs.
  pose proof Hwf as [[_ Hdom] Hall]%tree_message.
  pose proof (encode_length_ge m (keys m) bs Hbs) as Hlen.
  unfold decode. destruct bs as [|b buf].
  - destruct (keys m) as [|k ks] eqn:Hks; [|cbn in Hlen; lia].
    cbn. rewrite <- (addAll_canonical _ _ _ Hwf). by rewrite Hks.
  - erewrite (decodeLoop_encoded m (keys m) (b :: buf) _ NewMessage b buf []);
      [| |exact Hbs|by rewrite app_nil_r].
    2:{ intros j [v Hv]%Hdom. destruct (Hall j v Hv). eauto. }
    destruct (S (length (b :: buf)) - length (keys m))%nat eqn:Hf; [lia|].
    cbn. by rewrite (addAll_canonical _ _ _ Hwf).
Qed.

(** X11.  The bytes come back: encoding the message that [decode] returns
    for the encoding of a well-formed message gives that encoding again.
    In particular [encode] writes the same bytes for a nil and for an empty
    list. *)
Theorem encode_decode_encode (m : Message) :
  wellFormed m = true ->
  ∃ bs, encode m = Ok bs
        ∧ (decode NewMessage bs).1 = Ok tt
        ∧ encode (decode NewMessage bs).2 = Ok bs.
Proof.
  intros Hwf. destruct (encode_tree_ok _ _ m Hwf) as [bs Hbs]. exists bs.
  rewrite (decode_encoded m bs Hwf Hbs). cbn [fst snd].
  by rewrite encode_canonical.
Qed.

Lemma encode_decode_encode_witness :
  let m := (Set_ (Set_ NewMessage "pools" (IStrings (Some []))).1
              "child" (IMessage (Some (Set_ NewMessage "mode"
                                         (IString "tunnel")).1))).1 in
  ∃ bs, encode m = Ok bs
        ∧ (decode NewMessage bs).1 = Ok tt
        ∧ encode (decode NewMessage bs).2 = Ok bs.
Proof.
  intros m. apply (encode_decode_encode m). vm_compute. reflexivity.
Defined.

(** ** The schema mapper, both ways *)

Lemma emptyMessageElement_cons ro f fs :
  emptyMessageElement ro (RStruct (f :: fs))
  = match emptyMessageElement (ro || negb (fexported f)) (fvalue f) with
    | Ok true => emptyMessageElement ro (RStruct fs)
    | Ok false => Ok false
    | Error e => Error e
    | Panic => Panic
    end.
Proof.
  cbn [emptyMessageElement].
  destruct (emptyMessageElement _ (fvalue f)) as [[|]| |]; try done.
  induction fs as [|f' fs IH]; [done|]. apply IH.
Qed.

(** On a mappable value [emptyMessageElement] does not panic, and what it
    finds empty is the zero value of its type. *)
Lemma emptyMessageElement_mappable rv :
  mappable rv = true ->
  ∃ e, emptyMessageElement false rv = Ok e ∧ (e = true -> Zero rv = rv).
Proof.
  induction rv as [s|l|p| |fs IH|fs IH|z|z] using rvalue_ind_nested;
    intros Hmap; try discriminate.
  - eexists. split; [done|]. cbn. by intros ->%bool_decide_eq_true.
  - eexists. split; [done|]. by intros ->%bool_decide_eq_true.
  - eexists. split; [done|]. cbn. intros Hp%bool_decide_eq_true.
    destruct p; [|done]. destruct Hp. eauto.
  - by exists true.
  - cbn [mappable] in Hmap. apply andb_true_iff in Hmap as [_ Hall].
    rewrite Zero_struct.
    induction fs as [|f fs IHfs]; [by exists true|].
    apply Forall_cons in IH as [IHf IH].
    cbn [forallb] in Hall. apply andb_true_iff in Hall as [Hf Hall].
    apply andb_true_iff in Hf as [Hf Hfv].
    apply andb_true_iff in Hf as [_ Hexp].
    rewrite emptyMessageElement_cons, Hexp. cbn [negb orb].
    destruct (IHf Hfv) as (e & -> & He).
    destruct e; [|by exists false].
    destruct (IHfs IH Hall) as (e' & -> & He'). exists e'. split; [done|].
    intros ->. rewrite fmap_cons. specialize (He' eq_refl).
    injection He' as He'. rewrite He'. unfold zeroField.
    rewrite (He eq_refl). by destruct f.
  - cbn in Hmap. subst z. by exists true.
Qed.

(** A mappable field that is not empty is stored by [marshalField] as an
    element that [unmarshalField] reads back into a new field. *)
Lemma marshalField_unmarshalField rv :
  mappable rv = true ->
  (∀ sub, rv = RStruct sub -> marshal_unmarshal sub) ->
  emptyMessageElement false rv = Ok false ->
  ∃ x, supported x = true
       ∧ (∀ m t, marshalField m t rv = as_outcome (addItem m t x))
       ∧ unmarshalField true rv x = (Ok tt, rv).
Proof.
  intros Hmap Hsub Hempty.
  destruct rv as [s|l|p|[sub|]|sub|z|z]; try discriminate.
  - by exists (IString s).
  - by exists (IStrings l).
  - by exists (IMessage p).
  - destruct (Hsub sub eq_refl NewMessage NewMessage_consistent)
      as (msub & Hrun & _ & _ & Hback).
    { intros f _. apply lookup_empty. }
    exists (IMessage (Some msub)). split; [done|]. split.
    + intros m t. cbn [marshalField]. by rewrite Hrun.
    + rewrite unmarshalField_struct. by rewrite Hback.
  - cbn in Hmap. by subst z.
Qed.

Lemma mkField_eta f : mkField (ftag f) (fexported f) (fvalue f) = f.
Proof. by destruct f. Qed.

Lemma mappable_marshal_unmarshal rv :
  mappable rv = true ->
  ∀ sub, rv = RStruct sub -> marshal_unmarshal sub.
Proof.
  induction rv as [s|l|p| |fs IH|fs IH|z|z] using rvalue_ind_nested;
    intros Hmap sub Heq; try discriminate.
  injection Heq as <-.
  cbn [mappable] in Hmap. apply andb_true_iff in Hmap as [Hnd Hall].
  apply bool_decide_eq_true in Hnd.
  induction fs as [|f fs IHfs]; intros m Hc Hnone.
  { exists m. split_and!; try done. }
  apply Forall_cons in IH as [IHf IH].
  rewrite fmap_cons in Hnd. apply NoDup_cons in Hnd as [Hfresh Hnd].
  cbn [forallb] in Hall. apply andb_true_iff in Hall as [Hf Hall].
  apply andb_true_iff in Hf as [Hf Hfv].
  apply andb_true_iff in Hf as [Htag%negb_true_iff Hexp].
  apply newMessageTag_tagged in Htag.
  specialize (IHfs IH Hnd Hall).
  assert (data m !! ftag f = None) as Hm by (apply Hnone; left).
  assert (∀ g, g ∈ fs -> ftag g ≠ ftag f) as Hother.
  { intros g Hg Heq. apply Hfresh. rewrite <- Heq.
    apply list_elem_of_fmap. eauto. }
  destruct (emptyMessageElement_mappable _ Hfv) as (e & He & Hzero).
  cbn [marshalFields unmarshalFields].
  fold (marshalFields marshalField).
  fold (unmarshalFields unmarshalField).
  rewrite Htag, Hexp, He. cbn [skip name negb].
  destruct e.
  - destruct (IHfs m Hc) as (m' & Hrun & Hc' & Hout & Hback).
    { intros g Hg. apply Hnone. by right. }
    exists m'. split_and!; [done|done| |].
    + intros j Hj. apply Hout. intros Hin. apply Hj. by right.
    + intros m'' Hsame.
      rewrite (Hsame f) by left. rewrite Hout, Hm by done.
      rewrite Hback; [|intros g Hg; apply Hsame; by right].
      unfold found, zeroField. rewrite (Hzero eq_refl). by rewrite mkField_eta.
  - destruct (marshalField_unmarshalField (fvalue f) Hfv (IHf Hfv) He)
      as (x & Hx & Hstore & Hread).
    rewrite Hstore, addItem_supported by done.
    rewrite bool_decide_eq_false_2 by (rewrite Hm; by intros [? ?]).
    cbn [as_outcome].
    destruct (IHfs (mkMessage (keys m ++ [ftag f]) (<[ftag f:=x]> (data m))))
      as (m' & Hrun & Hc' & Hout & Hback).
    { pose proof (addItem_consistent m (ftag f) x Hc) as Hc1.
      rewrite addItem_supported in Hc1 by done.
      by rewrite bool_decide_eq_false_2 in Hc1
        by (rewrite Hm; by intros [? ?]). }
    { intros g Hg. cbn [data]. rewrite lookup_insert_ne by (symmetry; eauto).
      apply Hnone. by right. }
    exists m'. split_and!; [done|done| |].
    + intros j Hj. rewrite Hout by (intros Hin; apply Hj; by right).
      cbn [data]. apply lookup_insert_ne. intros <-. apply Hj. left.
    + intros m'' Hsame.
      rewrite (Hsame f) by left. rewrite Hout by done.
      cbn [data]. rewrite lookup_insert_eq, Hread.
      rewrite Hback; [|intros g Hg; apply Hsame; by right].
      by rewrite <- Hexp, mkField_eta.
Qed.

(** X12.  Schema round trip.  A record whose fields are all exported and
    tagged with distinct names, and hold strings, []strings, [*Message]s, nil
    struct pointers, zero scalars or nested such records, is marshaled
    without error, and unmarshaling the message into a new zero record of
    the same type gives the record back. *)
Theorem unmarshal_marshal (fs : list field) :
  mappable (RStruct fs) = true ->
  ∃ m, MarshalMessage (RStruct fs) = Ok m
       ∧ UnmarshalMessage m (RStructPtr (Some (zeroField <$> fs)))
         = (Ok tt, RStructPtr (Some fs)).
Proof.
  intros Hmap.
  destruct (mappable_marshal_unmarshal _ Hmap fs eq_refl NewMessage
              NewMessage_consistent) as (m & Hrun & _ & _ & Hback).
  { intros f _. apply lookup_empty. }
  exists m. unfold MarshalMessage, UnmarshalMessage, marshal, unmarshal.
  rewrite Hrun. split; [done|].
  by rewrite <- unmarshalFields_fresh, Hback.
Qed.

Lemma unmarshal_marshal_witness :
  let fs := [mkField "version" true (RString "5.9");
             mkField "pools" true (RStrings (Some ["a"; "b"]));
             mkField "comment" true (RString "");
             mkField "child" true
               (RStruct [mkField "mode" true (RString "tunnel");
                         mkField "port" true (RScalar true)])] in
  ∃ m, MarshalMessage (RStruct fs) = Ok m
       ∧ UnmarshalMessage m (RStructPtr (Some (zeroField <$> fs)))
         = (Ok tt, RStructPtr (Some fs)).
Proof.
  intros fs. apply (unmarshal_marshal fs). vm_compute. reflexivity.
Defined.

(** ** What [unmarshal] leaves alone *)

Lemma unmarshalFields_untouched m fs : ∀ r fs',
  unmarshalFields unmarshalField (Some m) false fs = (r, fs') ->
  length fs' = length fs
  ∧ ∀ i f, fs !! i = Some f ->
           data m !! name (newMessageTag (ftag f)) = None
           ∨ fexported f = false ->
           fs' !! i = Some f.
Proof.
  induction fs as [|f fs IH]; intros r fs' Hrun.
  { cbn in Hrun. by injection Hrun as <- <-. }
  cbn [unmarshalFields] in Hrun.
  fold (unmarshalFields unmarshalField (Some m) false) in Hrun.
  rewrite found_false in Hrun. change (found false f) with f in Hrun.
  destruct (unmarshalFields unmarshalField (Some m) false fs)
    as [r1 fs1] eqn:Hrest.
  destruct (IH r1 fs1 eq_refl) as [Hlen Hframe].
  assert (∀ g tl,
            length tl = length fs ->
            (∀ i f0, fs !! i = Some f0 ->
               data m !! name (newMessageTag (ftag f0)) = None
               ∨ fexported f0 = false -> tl !! i = Some f0) ->
            (data m !! name (newMessageTag (ftag f)) = None
             ∨ fexported f = false -> g = f) ->
            length (g :: tl) = length (f :: fs)
            ∧ ∀ i f0, (f :: fs) !! i = Some f0 ->
                data m !! name (newMessageTag (ftag f0)) = None
                ∨ fexported f0 = false ->
                (g :: tl) !! i = Some f0) as Hstep.
  { intros g tl Htl Hrest' Hg. split; [cbn; by rewrite Htl|].
    intros [|i] f0 Hi Hcond; cbn in Hi |- *.
    - injection Hi as ->. by rewrite Hg.
    - by apply Hrest'. }
  destruct (data m !! name (newMessageTag (ftag f))) as [value|] eqn:Hlook.
  2:{ injection Hrun as <- <-. by apply Hstep. }
  destruct (fexported f) eqn:Hexp; cbn [negb] in Hrun.
  2:{ injection Hrun as <- <-. by apply Hstep. }
  destruct (unmarshalField false (fvalue f) value) as [[[]| |] v'];
    injection Hrun as <- <-; apply Hstep; try done;
    by intros [?|?].
Qed.

(** X13.  [UnmarshalMessage] into a pointer to a struct keeps the number of
    fields; whether it succeeds or fails, every field that is not exported,
    and every field whose name (the tag, or the empty name when the tag is
    [-] or missing) is not a key of the message, holds the value it held
    before the call. *)
Theorem UnmarshalMessage_untouched (m : Message) (fs : list field)
    (r : outcome unit) (v' : rvalue) :
  UnmarshalMessage m (RStructPtr (Some fs)) = (r, v') ->
  ∃ fs', v' = RStructPtr (Some fs')
         ∧ length fs' = length fs
         ∧ ∀ i f, fs !! i = Some f ->
                  Get m (name (newMessageTag (ftag f))) = None
                  ∨ fexported f = false ->
                  fs' !! i = Some f.
Proof.
  unfold UnmarshalMessage, unmarshal, Get.
  destruct (unmarshalFields unmarshalField (Some m) false fs)
    as [r1 fs1] eqn:Hrun.
  intros [= <- <-]. exists fs1. split; [done|].
  by apply unmarshalFields_untouched in Hrun.
Qed.

Lemma UnmarshalMessage_untouched_witness :
  let m := (Set_ NewMessage "a" (IStrings None)).1 in
  let fs := [mkField "a" true (RString "old");
             mkField "b" true (RString "kept");
             mkField "a" false (RStrings (Some ["kept"]))] in
  ∃ fs', (RStructPtr (Some [mkField "a" true (RString "old");
                            mkField "b" true (RString "kept");
                            mkField "a" false (RStrings (Some ["kept"]))])
          = RStructPtr (Some fs'))
         ∧ length fs' = length fs
         ∧ ∀ i f, fs !! i = Some f ->
                  Get m (name (newMessageTag (ftag f))) = None
                  ∨ fexported f = false ->
                  fs' !! i = Some f.
Proof.
  intros m fs.
  apply (UnmarshalMessage_untouched m fs (Error errUnmarshalTypeMismatch)).
  vm_compute. reflexivity.
Defined.

(** ** A section unmarshaled into a nested record *)

Lemma unmarshalFields_empty_message fresh (fs : list field) :
  unmarshalFields unmarshalField (Some NewMessage) fresh fs
  = (Ok tt, found fresh <$> fs).
Proof.
  induction fs as [|f fs IH]; [done|].
  cbn [unmarshalFields].
  fold (unmarshalFields unmarshalField (Some NewMessage) fresh).
  cbn [NewMessage data]. rewrite lookup_empty, IH. by rewrite fmap_cons.
Qed.

(** X14.  A section unmarshaled into a field of struct type replaces the
    nested record: when [unmarshalField] succeeds, the record it leaves does
    not depend on what the field held before, and after an empty section
    every nested field holds the zero value of its type (fields that the
    section does not name are not kept). *)
Theorem unmarshalField_replaces_struct (sub : list field)
    (msg : option Message) :
  (∀ v', unmarshalField false (RStruct sub) (IMessage msg) = (Ok tt, v') ->
         unmarshalField false (Zero (RStruct sub)) (IMessage msg) = (Ok tt, v'))
  ∧ unmarshalField false (RStruct sub) (IMessage (Some NewMessage))
    = (Ok tt, Zero (RStruct sub)).
Proof.
  split.
  - intros v'. rewrite Zero_struct, !unmarshalField_struct.
    rewrite <- unmarshalFields_fresh_type.
    2:{ apply Forall_forall. intros f _ y. apply unmarshalField_fresh_type. }
    by destruct (unmarshalFields _ _ _ _) as [[[]| |] ?].
  - rewrite unmarshalField_struct, unmarshalFields_empty_message.
    by rewrite Zero_struct.
Qed.

Lemma unmarshalField_replaces_struct_witness :
  unmarshalField false
    (Zero (RStruct [mkField "mode" true (RString "old");
                    mkField "peer" true (RString "old")]))
    (IMessage (Some (Set_ NewMessage "mode" (IString "new")).1))
  = (Ok tt, RStruct [mkField "mode" true (RString "new");
                     mkField "peer" true (RString "")]).
Proof.
  apply (unmarshalField_replaces_struct
           [mkField "mode" true (RString "old");
            mkField "peer" true (RString "old")]).
  vm_compute. reflexivity.
Defined.

(** ** The keys of a marshaled record *)

Lemma marshalField_Ok m t rv m' :
  marshalField m t rv = (Ok tt, m') ->
  ∃ x, supported x = true ∧ m' = (addItem m t x).1.
Proof.
  destruct rv as [s|l|p|[sub|]|sub|z|z]; cbn [marshalField]; intros Hrun;
    try discriminate.
  - exists (IString s). split; [done|]. cbn in Hrun |- *. congruence.
  - exists (IStrings l). split; [done|]. cbn in Hrun |- *. congruence.
  - exists (IMessage p). split; [done|]. cbn in Hrun |- *. congruence.
  - destruct (marshalFields marshalField sub NewMessage) as [[[]| |] msg];
      try discriminate.
    exists (IMessage (Some msg)). split; [done|]. cbn in Hrun |- *. congruence.
  - destruct (marshalFields marshalField sub NewMessage) as [[[]| |] msg];
      try discriminate.
    exists (IMessage (Some msg)). split; [done|]. cbn in Hrun |- *. congruence.
Qed.

Lemma addItem_keys m k x :
  consistent m -> supported x = true ->
  keys (addItem m k x).1 = addKey (keys m) k.
Proof.
  intros [_ Hdom] Hx. rewrite addItem_supported by done. unfold addKey.
  rewrite (bool_decide_ext _ _ (Hdom k)). by case_bool_decide.
Qed.

Lemma marshalFields_keys fs : ∀ m m',
  consistent m ->
  marshalFields marshalField fs m = (Ok tt, m') ->
  consistent m'
  ∧ keys m' = foldl addKey (keys m) (ftag <$> List.filter emitted fs).
Proof.
  induction fs as [|f fs IH]; intros m m' Hc Hrun.
  { cbn in Hrun. by injection Hrun as <-. }
  cbn [marshalFields] in Hrun. fold (marshalFields marshalField) in Hrun.
  cbn [List.filter]. unfold emitted at 1.
  destruct (skip (newMessageTag (ftag f))) eqn:Hskip; cbn [negb andb].
  { by apply IH. }
  destruct (fexported f); cbn [negb andb] in Hrun |- *; [|by apply IH].
  destruct (emptyMessageElement false (fvalue f)) as [[|]| |];
    try discriminate; [by apply IH|].
  destruct (marshalField m (name (newMessageTag (ftag f))) (fvalue f))
    as [[[]| |] m1] eqn:Hfield; try discriminate.
  apply marshalField_Ok in Hfield as (x & Hx & ->).
  rewrite (newMessageTag_tagged _ Hskip) in Hrun. cbn [name] in Hrun.
  apply IH in Hrun as [Hc' ->]; [|by apply addItem_consistent].
  split; [done|]. rewrite fmap_cons. cbn [foldl].
  by rewrite addItem_keys.
Qed.

Lemma foldl_addKey_NoDup l : ∀ acc,
  NoDup (acc ++ l) -> foldl addKey acc l = acc ++ l.
Proof.
  induction l as [|k l IH]; intros acc Hnd; [by rewrite app_nil_r|].
  cbn [foldl]. unfold addKey at 2.
  rewrite bool_decide_eq_false_2.
  - rewrite IH; rewrite <- app_assoc; done.
  - apply NoDup_app in Hnd as (_ & Hdisj & _). intros Hin.
    apply (Hdisj _ Hin). left.
Qed.

(** X15.  The keys of a marshaled record.  When [MarshalMessage] returns a
    message for a struct, the message is consistent and its keys are the tags
    of the fields that are tagged with a name, exported and not empty, in the
    order the struct declares them, a tag that several such fields share
    standing once, where its first field stands; when those tags are distinct
    the keys are exactly that list of tags. *)
Theorem MarshalMessage_keys (fs : list field) (m : Message) :
  MarshalMessage (RStruct fs) = Ok m ->
  consistent m
  ∧ Keys m = foldl addKey [] (ftag <$> List.filter emitted fs)
  ∧ (NoDup (ftag <$> List.filter emitted fs) ->
     Keys m = ftag <$> List.filter emitted fs).
Proof.
  unfold MarshalMessage, marshal, Keys.
  destruct (marshalFields marshalField fs NewMessage) as [[[]| |] m'] eqn:Hrun;
    intros [= <-].
  apply marshalFields_keys in Hrun as [Hc Hkeys];
    [|apply NewMessage_consistent].
  split_and!; [done|done|].
  intros Hnd. rewrite Hkeys. by apply (foldl_addKey_NoDup _ []).
Qed.

Lemma MarshalMessage_keys_witness :
  let fs := [mkField "b" true (RString "x");
             mkField "-" true (RString "skipped");
             mkField "a" true (RStrings (Some []));
             mkField "c" false (RString "hidden");
             mkField "d" true (RString "");
             mkField "b" true (RString "y")] in
  let m := mkMessage ["b"; "a"]
             (<["b" := IString "y"]>
                (<["a" := IStrings (Some [])]> (<["b" := IString "x"]> ∅))) in
  consistent m
  ∧ Keys m = foldl addKey [] (ftag <$> List.filter emitted fs)
  ∧ (NoDup (ftag <$> List.filter emitted fs) ->
     Keys m = ftag <$> List.filter emitted fs).
Proof.
  intros fs m. apply (MarshalMessage_keys fs m). vm_compute. reflexivity.
Defined.

(** ** From a record to bytes and back *)

Lemma wireable_mappable rv : wireable rv = true -> mappable rv = true.
Proof.
  induction rv as [s|l|p| |fs IH|fs IH|z|z] using rvalue_ind_nested;
    try done.
  cbn [wireable mappable]. intros [Hnd Hall]%andb_true_iff.
  rewrite Hnd. cbn [andb]. clear Hnd.
  induction fs as [|f fs IHfs]; [done|].
  apply Forall_cons in IH as [IHf IH].
  cbn [forallb] in Hall |- *. apply andb_true_iff in Hall as [Hf Hall].
  apply andb_true_iff in Hf as [Hf Hfv].
  apply andb_true_iff in Hf as [Hf Hexp].
  apply andb_true_iff in Hf as [_ Htag].
  rewrite Htag, Hexp, (IHf Hfv). cbn [andb]. by apply IHfs.
Qed.

Lemma NewMessage_plain : plain (IMessage (Some NewMessage)).
Proof.
  split.
  - apply tree_message. split; [apply NewMessage_consistent|].
    intros k v. cbn. by rewrite lookup_empty.
  - cbn [canon NewMessage keys data]. by rewrite fmap_empty.
Qed.

Lemma addItem_plain m k x :
  plain (IMessage (Some m)) -> key_ok k = true -> plain x ->
  plain (IMessage (Some (addItem m k x).1)).
Proof.
  intros [Hwf Hcanon] Hk [Hx Hcx]. split; [by apply addItem_tree|].
  rewrite addItem_supported by (by eapply tree_supported).
  destruct m as [ks d]. cbn [canon keys data] in Hcanon.
  injection Hcanon as Hd.
  unfold assign. case_bool_decide; cbn [fst canon keys data];
    by rewrite fmap_insert, Hd, Hcx.
Qed.

Lemma marshalField_plain rv m t m1 :
  wireable rv = true ->
  (∀ sub, rv = RStruct sub -> ∀ m m',
     plain (IMessage (Some m)) ->
     marshalFields marshalField sub m = (Ok tt, m') ->
     plain (IMessage (Some m'))) ->
  emptyMessageElement false rv = Ok false ->
  marshalField m t rv = (Ok tt, m1) ->
  ∃ x, plain x ∧ m1 = (addItem m t x).1.
Proof.
  intros Hw Hsub Hempty Hrun.
  destruct rv as [s|l|[p|]|[sub|]|sub|z|z]; try discriminate.
  - exists (IString s). split; [done|]. cbn in Hrun |- *. congruence.
  - exists (IStrings l). split; [|cbn in Hrun |- *; congruence].
    split; [by destruct l as [[|? ?]|]|]. by destruct l as [[|? ?]|].
  - cbn [marshalField] in Hrun.
    destruct (marshalFields marshalField sub NewMessage)
      as [[[]| |] msg] eqn:Hmsg; try discriminate.
    exists (IMessage (Some msg)). split; [|cbn in Hrun |- *; congruence].
    eapply Hsub; [done|apply NewMessage_plain|done].
Qed.

Lemma marshalFields_plain rv :
  wireable rv = true ->
  ∀ sub, rv = RStruct sub -> ∀ m m',
    plain (IMessage (Some m)) ->
    marshalFields marshalField sub m = (Ok tt, m') ->
    plain (IMessage (Some m')).
Proof.
  induction rv as [s|l|p| |fs IH|fs IH|z|z] using rvalue_ind_nested;
    intros Hw sub Heq; try discriminate.
  injection Heq as <-.
  cbn [wireable] in Hw. apply andb_true_iff in Hw as [_ Hall].
  induction fs as [|f fs IHfs]; intros m m' Hm Hrun.
  { cbn in Hrun. by injection Hrun as <-. }
  apply Forall_cons in IH as [IHf IH].
  cbn [forallb] in Hall. apply andb_true_iff in Hall as [Hf Hall].
  apply andb_true_iff in Hf as [Hf Hfv].
  apply andb_true_iff in Hf as [Hf Hexp].
  apply andb_true_iff in Hf as [Hkey Htag%negb_true_iff].
  specialize (IHfs IH Hall).
  cbn [marshalFields] in Hrun. fold (marshalFields marshalField) in Hrun.
  rewrite Htag, Hexp in Hrun. cbn [negb] in Hrun.
  destruct (emptyMessageElement false (fvalue f)) as [[|]| |] eqn:Hempty;
    try discriminate; [by eapply IHfs|].
  destruct (marshalField m (name (newMessageTag (ftag f))) (fvalue f))
    as [[[]| |] m1] eqn:Hfield; try discriminate.
  apply (marshalField_plain _ _ _ _ Hfv (IHf Hfv) Hempty) in Hfield
    as (x & Hx & ->).
  rewrite (newMessageTag_tagged _ Htag) in Hrun. cbn [name] in Hrun.
  eapply IHfs; [|exact Hrun]. by apply addItem_plain.
Qed.

(** X16.  From a record to bytes and back.  A record whose fields are
    exported and tagged with distinct names of 1 to 255 bytes, and hold
    strings and list items of at most 65535 bytes, nil or non-empty
    []strings, nil pointers, zero scalars or nested such records, is
    marshaled, encoded, decoded into a new message and unmarshaled into a
    new zero record of its type without error, and the record read is the
    record written; the message decoded is the message marshaled. *)
Theorem unmarshal_decode_encode_marshal (fs : list field) :
  wireable (RStruct fs) = true ->
  ∃ m bs,
    MarshalMessage (RStruct fs) = Ok m
    ∧ encode m = Ok bs
    ∧ decode NewMessage bs = (Ok tt, m)
    ∧ UnmarshalMessage m (RStructPtr (Some (zeroField <$> fs)))
      = (Ok tt, RStructPtr (Some fs)).
Proof.
  intros Hw.
  destruct (mappable_marshal_unmarshal _ (wireable_mappable _ Hw) fs eq_refl
              NewMessage NewMessage_consistent) as (m & Hrun & _ & _ & Hback).
  { intros f _. apply lookup_empty. }
  destruct (marshalFields_plain _ Hw fs eq_refl _ _ NewMessage_plain Hrun)
    as [Hwf Hcanon].
  destruct (encode_tree_ok _ _ m Hwf) as [bs Hbs].
  exists m, bs. unfold MarshalMessage, UnmarshalMessage, marshal, unmarshal.
  rewrite Hrun. split_and!; [done|done| |].
  - rewrite (decode_encoded m bs Hwf Hbs). f_equal.
    cbn [canon] in Hcanon. by injection Hcanon.
  - by rewrite <- unmarshalFields_fresh, Hback.
Qed.

Lemma unmarshal_decode_encode_marshal_witness :
  let fs := [mkField "version" true (RString "5.9");
             mkField "pools" true (RStrings (Some ["a"; "b"]));
             mkField "comment" true (RString "");
             mkField "child" true
               (RStruct [mkField "mode" true (RString "tunnel");
                         mkField "port" true (RScalar true)])] in
  ∃ m bs,
    MarshalMessage (RStruct fs) = Ok m
    ∧ encode m = Ok bs
    ∧ decode NewMessage bs = (Ok tt, m)
    ∧ UnmarshalMessage m (RStructPtr (Some (zeroField <$> fs)))
      = (Ok tt, RStructPtr (Some fs)).
Proof.
  intros fs. apply (unmarshal_decode_encode_marshal fs).
  vm_compute. reflexivity.
Defined.

(** ** Reading back what [Set] stored *)

(** X17.  [Get] after [Set].  After [Set] stored a string, a []string or a
    [*Message] under a key of a consistent message, [Get] returns that value
    for the key and what it returned before for every other key, and [Keys]
    is the list it was, with the key appended when it is new. *)
Theorem Get_Set (m : Message) (k : string) (v : iface) :
  consistent m ->
  supported v = true ->
  Get (Set_ m k v).1 k = Some v
  ∧ (∀ j, j ≠ k -> Get (Set_ m k v).1 j = Get m j)
  ∧ Keys (Set_ m k v).1 = (if bool_decide (k ∈ Keys m) then Keys m
                           else Keys m ++ [k]).
Proof.
  intros Hc Hv. unfold Set_, Get, Keys.
  rewrite (addItem_keys _ _ _ Hc Hv).
  rewrite addItem_supported by done. unfold assign.
  split_and!; [| |done].
  - case_bool_decide; cbn [fst data]; apply lookup_insert_eq.
  - intros j Hj. case_bool_decide; cbn [fst data]; by apply lookup_insert_ne.
Qed.

Lemma Get_Set_witness :
  let m := (Set_ (Set_ NewMessage "a" (IString "1")).1 "b" (IStrings None)).1 in
  Get (Set_ m "a" (IMessage None)).1 "a" = Some (IMessage None)
  ∧ (∀ j, j ≠ "a" -> Get (Set_ m "a" (IMessage None)).1 j = Get m j)
  ∧ Keys (Set_ m "a" (IMessage None)).1
    = (if bool_decide ("a" ∈ Keys m) then Keys m else Keys m ++ ["a"]).
Proof.
  intros m. apply (Get_Set m "a" (IMessage None)).
  - apply addItem_consistent, addItem_consistent, NewMessage_consistent.
  - reflexivity.
Defined.

(** ** Messages with the same encoding *)

(** X18.  [encode] tells messages apart: two well-formed messages with the
    same encoding are structurally equal, that is, they have the same keys
    in the same order and the same values at every level, a nil list being
    the same as an empty one. *)
Theorem encode_injective (m1 m2 : Message) (bs : list byte) :
  wellFormed m1 = true ->
  wellFormed m2 = true ->
  encode m1 = Ok bs ->
  encode m2 = Ok bs ->
  structurally_equal m1 m2.
Proof.
  intros Hwf1 Hwf2 H1 H2. unfold structurally_equal.
  pose proof (decode_encoded m1 bs Hwf1 H1) as Hd1.
  pose proof (decode_encoded m2 bs Hwf2 H2) as Hd2.
  congruence.
Qed.

Lemma encode_injective_witness :
  structurally_equal
    (Set_ (Set_ NewMessage "k" (IString "v")).1 "l" (IStrings None)).1
    (Set_ (Set_ NewMessage "k" (IString "v")).1 "l" (IStrings (Some []))).1.
Proof.
  apply (encode_injective _ _
           (match encode (Set_ (Set_ NewMessage "k" (IString "v")).1 "l"
                            (IStrings None)).1 with
            | Ok bs => bs
            | _ => []
            end));
    vm_compute; reflexivity.
Defined.
